(** * Elliptic-curve arithmetic of [lab4/ecc_logic.py]

    A shallow embedding of the module: Python integers are [Z] (unbounded,
    [%] and [//] are the floor operations [Z.modulo] and [Z.div]), raised
    exceptions are the [Raise] outcome of [result], and every [while] loop is a
    fuel-indexed [Fixpoint] whose fuel is computed from the loop's own bound. *)

From Stdlib Require Import ZArith List Bool Lia Znumtheory Zdivisibility Zcong.
From Stdlib Require Import Zmod.Zmod Sorted Field.
Import ListNotations.

#[local] Open Scope Z_scope.

(** ** Outcomes of a call *)

Inductive exn : Type :=
| ValueError
| RuntimeError
| TypeError
| ZeroDivisionError
| OverflowError.

(** [OutOfFuel] is not a Python outcome: it marks a loop model that stopped
    before the loop did, and is shown not to occur. *)
Inductive result (A : Type) : Type :=
| Ok (v : A)
| Raise (e : exn)
| OutOfFuel.

Arguments Ok {A} v.
Arguments Raise {A} e.
Arguments OutOfFuel {A}.

Definition bind {A B : Type} (r : result A) (k : A -> result B) : result B :=
  match r with
  | Ok v => k v
  | Raise e => Raise e
  | OutOfFuel => OutOfFuel
  end.

Notation "x <- r ;; k" := (bind r (fun x => k))
  (at level 61, r at next level, right associativity).
Notation "' pat <- r ;; k" := (bind r (fun v => let pat := v in k))
  (at level 61, pat pattern, r at next level, right associativity).

(** ** Helper functions *)

(** [extended_gcd]: the recursion is on [(b % a, a)]; [|b % a| < |a|], so
    [S |a|] levels are enough. *)
Fixpoint extended_gcd_rec (fuel : nat) (a b : Z) : result (Z * Z * Z) :=
  if a =? 0 then Ok (b, 0, 1)
  else
    match fuel with
    | O => OutOfFuel
    | S fuel' =>
        '(d, x1, y1) <- extended_gcd_rec fuel' (b mod a) a ;;
        let x := y1 - (b / a) * x1 in
        let y := x1 in
        Ok (d, x, y)
    end.

Definition extended_gcd (a b : Z) : result (Z * Z * Z) :=
  extended_gcd_rec (S (Z.abs_nat a)) a b.

(** [x % m] raises [ZeroDivisionError] when [m] is zero. *)
Definition py_mod (x m : Z) : result Z :=
  if m =? 0 then Raise ZeroDivisionError else Ok (x mod m).

Definition mod_inv (a m : Z) : result Z :=
  '(d, x, _) <- extended_gcd a m ;;
  if negb (d =? 1) then Raise ValueError
  else py_mod x m.

(** Three-argument [pow(base, e, m)] as the module calls it: a non-negative
    exponent and a modulus above 2. *)
Definition pow (base e m : Z) : Z := (base ^ e) mod m.

Definition legendre_symbol (a p : Z) : result Z :=
  if p <=? 2 then Raise ValueError
  else
    let a := a mod p in
    let ls := pow a ((p - 1) / 2) p in
    Ok (if negb (ls =? p - 1) then ls else -1).

(** [sorted(list(set(l)))]: the distinct elements in ascending order. *)
Fixpoint insert_uniq (v : Z) (l : list Z) : list Z :=
  match l with
  | [] => [v]
  | h :: tl =>
      if v <? h then v :: l
      else if v =? h then l
      else h :: insert_uniq v tl
  end.

Definition sorted_set (l : list Z) : list Z := fold_right insert_uniq [] l.

(** [range(lo, hi)] *)
Definition py_range (lo hi : Z) : list Z :=
  map (fun k => lo + Z.of_nat k) (seq 0 (Z.to_nat (hi - lo))).

(** [while Q % 2 == 0: S += 1; Q //= 2] *)
Fixpoint split_twos (fuel : nat) (Q s : Z) : result (Z * Z) :=
  if Q mod 2 =? 0 then
    match fuel with
    | O => OutOfFuel
    | S fuel' => split_twos fuel' (Q / 2) (s + 1)
    end
  else Ok (Q, s).

(** [while legendre_symbol(z, p) != -1: z += 1; if z >= p: raise RuntimeError] *)
Fixpoint find_non_residue (fuel : nat) (z p : Z) : result Z :=
  ls <- legendre_symbol z p ;;
  if negb (ls =? -1) then
    let z := z + 1 in
    if z >=? p then Raise RuntimeError
    else
      match fuel with
      | O => OutOfFuel
      | S fuel' => find_non_residue fuel' z p
      end
  else Ok z.

(** The inner [for i_pow in range(1, M)] with its [break]; the value is [i],
    still 0 when no square of [temp] reached 1. *)
Fixpoint least_i (p temp : Z) (rng : list Z) : Z :=
  match rng with
  | [] => 0
  | i_pow :: rest =>
      let temp := pow temp 2 p in
      if temp =? 1 then i_pow else least_i p temp rest
  end.

(** [while t != 1] of step 4; the value is the final [R]. *)
Fixpoint ts_loop (fuel : nat) (p M c t R : Z) : result Z :=
  if negb (t =? 1) then
    let i := least_i p t (py_range 1 M) in
    if i =? 0 then Ok R
    else
      match fuel with
      | O => OutOfFuel
      | S fuel' =>
          let exponent := Z.shiftl 1 (M - i - 1) in
          let b := pow c exponent p in
          let M := i in
          let c := pow b 2 p in
          let t := (t * c) mod p in
          let R := (R * b) mod p in
          ts_loop fuel' p M c t R
      end
  else Ok R.

Definition tonelli_shanks (n p : Z) : result (list Z) :=
  if p <=? 2 then Raise ValueError
  else
    let n := n mod p in
    if n =? 0 then Ok [0]
    else
      ls <- legendre_symbol n p ;;
      if negb (ls =? 1) then Ok []
      else if p mod 4 =? 3 then
        let x := pow n ((p + 1) / 4) p in
        Ok (sorted_set [x; p - x])
      else
        '(Q, s) <- split_twos (Z.to_nat (p - 1)) (p - 1) 0 ;;
        z <- find_non_residue (Z.to_nat p) 2 p ;;
        let M := s in
        let c := pow z Q p in
        let t := pow n Q p in
        let R := pow n ((Q + 1) / 2) p in
        R <- ts_loop (Z.to_nat M) p M c t R ;;
        Ok (sorted_set [R; p - R]).

(** ** Class [Point] *)

Definition opt_eqb (u v : option Z) : bool :=
  match u, v with
  | None, None => true
  | Some i, Some j => i =? j
  | _, _ => false
  end.

Definition is_none (u : option Z) : bool :=
  match u with None => true | Some _ => false end.

(** Arithmetic on an absent coordinate raises [TypeError]. *)
Definition need (u : option Z) : result Z :=
  match u with Some v => Ok v | None => Raise TypeError end.

Module Point.

Record t : Type := mk { x : option Z; y : option Z; a : Z; b : Z; p : Z }.

(** [is_on_curve], as [__init__] calls it: after the check [p > 2]. *)
Definition is_on_curve (self : t) : bool :=
  match x self, y self with
  | None, None => true
  | Some xv, Some yv =>
      let left := pow yv 2 (p self) in
      let right := (pow xv 3 (p self) + a self * xv + b self) mod p self in
      left =? right
  | _, _ => false
  end.

(** [Point(x, y, a, b, p)] *)
Definition init (x y : option Z) (a b p : Z) : result t :=
  let self := mk x y a b p in
  if is_none x && is_none y then Ok self
  else if p <=? 2 then Raise ValueError
  else if negb (is_on_curve self) then Raise ValueError
  else Ok self.

(** What the right operand of [==] and [+] can be. *)
Inductive operand : Type :=
| NoneVal
| PointVal (q : t)
| OtherVal (v : Z).

Definition eqb (self other : t) : bool :=
  opt_eqb (x self) (x other) && opt_eqb (y self) (y other) &&
  (a self =? a other) && (b self =? b other) && (p self =? p other).

(** [__eq__] *)
Definition eq (self : t) (other : operand) : bool :=
  match other with
  | NoneVal => is_none (x self) && is_none (y self)
  | OtherVal _ => false
  | PointVal q => eqb self q
  end.

(** [__neg__] *)
Definition neg (self : t) : result t :=
  match x self with
  | None => Ok self
  | Some _ =>
      yv <- need (y self) ;;
      ny <- py_mod (- yv) (p self) ;;
      init (x self) (Some ny) (a self) (b self) (p self)
  end.

(** [__add__] on two points, after the [isinstance] check. *)
Definition add_points (self other : t) : result t :=
  if negb (p self =? p other) || negb (a self =? a other)
     || negb (b self =? b other)
  then Raise ValueError
  else
    match x self, x other with
    | None, _ => Ok other
    | _, None => Ok self
    | Some x1, Some x2 =>
        let pm := p self in
        inverse <-
          (if x1 =? x2 then
             y2 <- need (y other) ;;
             ny <- py_mod (- y2) pm ;;
             Ok (opt_eqb (y self) (Some ny))
           else Ok false) ;;
        if inverse then init None None (a self) (b self) pm
        else
          l <-
            (if (x1 =? x2) && opt_eqb (y self) (y other) then
               if opt_eqb (y self) (Some 0) then Ok None
               else
                 y1 <- need (y self) ;;
                 num <- py_mod (3 * pow x1 2 pm + a self) pm ;;
                 den <- py_mod (2 * y1) pm ;;
                 inv <- mod_inv den pm ;;
                 l <- py_mod (num * inv) pm ;;
                 Ok (Some l)
             else
               y2 <- need (y other) ;;
               y1 <- need (y self) ;;
               num <- py_mod (y2 - y1) pm ;;
               den <- py_mod (x2 - x1) pm ;;
               inv <- mod_inv den pm ;;
               l <- py_mod (num * inv) pm ;;
               Ok (Some l)) ;;
          match l with
          | None => init None None (a self) (b self) pm
          | Some l =>
              y1 <- need (y self) ;;
              x3 <- py_mod (pow l 2 pm - x1 - x2) pm ;;
              y3 <- py_mod (l * (x1 - x3) - y1) pm ;;
              init (Some x3) (Some y3) (a self) (b self) pm
          end
    end.

(** [__add__] *)
Definition add (self : t) (other : operand) : result t :=
  match other with
  | PointVal q => add_points self q
  | _ => Raise TypeError
  end.

(** [while k > 0] of [__rmul__] *)
Fixpoint rmul_loop (fuel : nat) (k : Z) (res current : t) : result t :=
  if 0 <? k then
    match fuel with
    | O => OutOfFuel
    | S fuel' =>
        res <- (if k mod 2 =? 1 then add_points res current else Ok res) ;;
        current <- add_points current current ;;
        rmul_loop fuel' (k / 2) res current
    end
  else Ok res.

(** [__rmul__], for an integer scalar *)
Definition rmul (self : t) (k : Z) : result t :=
  if k <? 0 then Raise ValueError
  else
    O <- init None None (a self) (b self) (p self) ;;
    if k =? 0 then Ok O
    else if is_none (x self) then Ok O
    else rmul_loop (Z.to_nat k) k O self.

End Point.

(** ** Curve analysis *)

(** [while order <= max_iterations] with its [else]; the value is the order,
    [None] when the loop ended on its bound. *)
Fixpoint order_loop (fuel : nat) (G O current_point : Point.t)
    (order max_iterations : Z) : result (option Z) :=
  if order <=? max_iterations then
    match fuel with
    | 0%nat => OutOfFuel
    | S fuel' =>
        next_point <- Point.add_points current_point G ;;
        let order := order + 1 in
        let current_point := next_point in
        if Point.eq current_point (Point.PointVal O) then Ok (Some order)
        else order_loop fuel' G O current_point order max_iterations
    end
  else Ok None.

(** [find_order_brute_force]; [start_time] and [end_time] are the two readings
    of the clock, taken at the start and on leaving the loop. *)
Definition find_order_brute_force (start_time end_time : Z) (G : Point.t)
  : result (option Z * Z) :=
  if is_none (Point.x G) then Ok (Some 1, 0)
  else
    O <- Point.init None None (Point.a G) (Point.b G) (Point.p G) ;;
    let max_iterations := 2 * Point.p G + 2 in
    order <- order_loop (Z.to_nat max_iterations) G O G 1 max_iterations ;;
    Ok (order, end_time - start_time).

(** [float(n)] of a positive integer raises [OverflowError] from
    [2^1024 - 2^970] on: the largest double is [2^1024 - 2^971], and an
    integer half-way to [2^1024] or beyond rounds out of the range. *)
Definition float_overflows (n : Z) : bool := 2 ^ 1024 - 2 ^ 970 <=? n.

(** [discriminant] of [validate_curve] *)
Definition discriminant (a b p : Z) : Z :=
  (4 * pow a 3 p + 27 * pow b 2 p) mod p.

(** [validate_curve], without its messages.  The trial division that sets
    [is_prime] only selects a warning to print; its one effect on the call
    is that [math.sqrt(p)], evaluated for an odd [p], converts [p] to a
    float and raises when that overflows. *)
Definition validate_curve (a b p : Z) : result bool :=
  if p <=? 2 then Ok false
  else
    _ <- (if (2 <? p) && negb (p mod 2 =? 0)
          then if float_overflows p then Raise OverflowError else Ok tt
          else Ok tt) ;;
    if discriminant a b p =? 0 then Ok false else Ok true.

(** The [for y in roots] of [find_points_on_curve]: [inl] when the limit was
    reached and the function returns, [inr] to go on with the next [x]. *)
Fixpoint emit_roots (xv : Z) (roots : list Z) (points_x points_y : list Z)
    (count max_total_points : Z)
  : (list Z * list Z) + (list Z * list Z * Z) :=
  match roots with
  | [] => inr (points_x, points_y, count)
  | yv :: rest =>
      let points_x := points_x ++ [xv] in
      let points_y := points_y ++ [yv] in
      let count := count + 1 in
      if count >=? max_total_points then inl (points_x, points_y)
      else emit_roots xv rest points_x points_y count max_total_points
  end.

(** The [for x in range(x_limit)]; a raised exception skips that [x]. *)
Fixpoint scan_xs (xs : list Z) (a b p : Z) (points_x points_y : list Z)
    (count max_total_points : Z) : result (list Z * list Z) :=
  match xs with
  | [] => Ok (points_x, points_y)
  | xv :: rest =>
      let rhs := (pow xv 3 p + a * xv + b) mod p in
      match tonelli_shanks rhs p with
      | Ok roots =>
          match emit_roots xv roots points_x points_y count max_total_points with
          | inl done => Ok done
          | inr (points_x, points_y, count) =>
              scan_xs rest a b p points_x points_y count max_total_points
          end
      | Raise _ => scan_xs rest a b p points_x points_y count max_total_points
      | OutOfFuel => OutOfFuel
      end
  end.

Definition find_points_on_curve (a b p x_limit max_total_points : Z)
  : result (list Z * list Z) :=
  if p <=? 2 then Ok ([], [])
  else scan_xs (py_range 0 x_limit) a b p [] [] 0 max_total_points.

(** ** Polynomials over the integers modulo [m]

    Used to count the square roots of 1 of a given order: a coefficient list,
    lowest degree first, its value by Horner's rule, and the quotient of the
    division by [X - r]. *)

Fixpoint poly_eval {m : Z} (f : list (Zmod m)) (v : Zmod m) : Zmod m :=
  match f with
  | [] => Zmod.zero
  | c :: q => Zmod.add c (Zmod.mul v (poly_eval q v))
  end.

Fixpoint poly_quot {m : Z} (f : list (Zmod m)) (r : Zmod m) : list (Zmod m) :=
  match f with
  | [] => []
  | _ :: q =>
      match q with
      | [] => []
      | _ :: _ => poly_eval q r :: poly_quot q r
      end
  end.

(** [X^k - 1] *)
Definition poly_unity (m : Z) (k : nat) : list (Zmod m) :=
  Zmod.opp Zmod.one :: repeat Zmod.zero (Nat.pred k) ++ [Zmod.one].

(** The invariant of the main loop of [tonelli_shanks] on input [n], [p]:
    [t] has order dividing [2^(M-1)], [c] has order [2^M], and [R] is a
    square root of [t * n]. *)
Definition ts_inv (p n M c t R : Z) : Prop :=
  1 <= M /\ 0 <= t < p /\ 0 <= R < p /\
  pow t (2 ^ (M - 1)) p = 1 /\
  pow c (2 ^ (M - 1)) p = p - 1 /\
  (R * R) mod p = (t * n) mod p.

(** ** Vocabulary of the statements *)

(** Trial division, to exhibit concrete primes. *)
Definition primeb (p : Z) : bool :=
  (1 <? p) && forallb (fun d => negb (p mod d =? 0)) (py_range 2 p).

(** [(xv, yv)] satisfies the curve equation modulo [p]. *)
Definition on_curve (a b p xv yv : Z) : Prop :=
  yv ^ 2 mod p = (xv ^ 3 + a * xv + b) mod p.

(** The state of the scan: the two lists go in step, hold [count] pairs that
    all lie on the curve, and [count] is below the limit unless it is 0. *)
Definition scan_inv (a b p max_total_points : Z)
    (points_x points_y : list Z) (count : Z) : Prop :=
  Forall2 (on_curve a b p) points_x points_y /\
  count = Z.of_nat (length points_x) /\
  (count = 0 \/ count < max_total_points).

Definition scan_post (a b p max_total_points : Z) (xs ys : list Z) : Prop :=
  Forall2 (on_curve a b p) xs ys /\
  Z.of_nat (length xs) <= Z.max 1 max_total_points.

(** ** The curve over the field of integers modulo [p]

    The group law of [Point.__add__] read in [Zmod p]; [None] is the point at
    infinity.  [Point.add_points] is related to it below. *)

Definition ec_point (p : Z) : Type := option (Zmod p * Zmod p).

Definition ec_on_curve {p : Z} (A B : Zmod p) (P : ec_point p) : Prop :=
  match P with
  | None => True
  | Some (u, v) => (v * v = u * u * u + A * u + B)%Zmod
  end.

Definition ec_neg {p : Z} (P : ec_point p) : ec_point p :=
  match P with
  | None => None
  | Some (u, v) => Some (u, Zmod.opp v)
  end.

Definition ec_add {p : Z} (A : Zmod p) (P Q : ec_point p) : ec_point p :=
  match P, Q with
  | None, _ => Q
  | _, None => P
  | Some (x1, y1), Some (x2, y2) =>
      if Zmod.eqb x1 x2 && Zmod.eqb y1 (Zmod.opp y2) then None
      else
        let l :=
          (if Zmod.eqb x1 x2 && Zmod.eqb y1 y2
           then Zmod.mdiv (x1 * x1 + x1 * x1 + x1 * x1 + A) (y1 + y1)
           else Zmod.mdiv (y2 - y1) (x2 - x1))%Zmod in
        let x3 := (l * l - x1 - x2)%Zmod in
        let y3 := (l * (x1 - x3) - y1)%Zmod in
        Some (x3, y3)
  end.

(** The coordinates of a point, read modulo [p]. *)
Definition to_ec (p : Z) (P : Point.t) : ec_point p :=
  match Point.x P, Point.y P with
  | Some xv, Some yv => Some (Zmod.of_Z p xv, Zmod.of_Z p yv)
  | _, _ => None
  end.

(** A point of the curve [(a, b, p)] as the data model has it: the identity,
    or coordinates in [[0, p)] that satisfy the curve equation. *)
Definition valid_point (a b p : Z) (P : Point.t) : bool :=
  (Point.a P =? a) && (Point.b P =? b) && (Point.p P =? p) &&
  match Point.x P, Point.y P with
  | None, None => true
  | Some xv, Some yv =>
      (0 <=? xv) && (xv <? p) && (0 <=? yv) && (yv <? p) && Point.is_on_curve P
  | _, _ => false
  end.

(** The running accumulator of [find_order_brute_force] after [k]
    additions of [G] to [G]. *)
Fixpoint accumulate (G : Point.t) (k : nat) : result Point.t :=
  match k with
  | O => Ok G
  | S k' => P <- accumulate G k' ;; Point.add_points P G
  end.

(** ** The two constructions of the group law

    The sum along the line of slope [l] through [(x1, y1)], whose other
    point has abscissa [x2]: the last lines of [Point.__add__]. *)
Definition line_sum {p : Z} (l x1 y1 x2 : Zmod p) : Zmod p * Zmod p :=
  ((l * l - x1 - x2)%Zmod, (l * (x1 - (l * l - x1 - x2)) - y1)%Zmod).

(** Addition of two points with different abscissas. *)
Definition chord {p : Z} (x1 y1 x2 y2 : Zmod p) : Zmod p * Zmod p :=
  line_sum (Zmod.mdiv (y2 - y1) (x2 - x1)) x1 y1 x2.

(** Doubling of a point. *)
Definition tangent {p : Z} (A x1 y1 : Zmod p) : Zmod p * Zmod p :=
  line_sum (Zmod.mdiv (x1 * x1 + x1 * x1 + x1 * x1 + A) (y1 + y1)) x1 y1 x1.

(** The curve equation on two coordinates. *)
Definition oncF {p : Z} (A B x y : Zmod p) : Prop :=
  (y * y = x * x * x + A * x + B)%Zmod.

(** No point of the curve is singular: the cubic and its derivative have no
    common root. *)
Definition smooth {p : Z} (A B : Zmod p) : Prop :=
  forall x : Zmod p,
    (x * x * x + A * x + B = 0)%Zmod -> (x * x + x * x + x * x + A <> 0)%Zmod.

(** [k] times a point: [k] additions, starting from the point at infinity. *)
Fixpoint ec_mul {p : Z} (A : Zmod p) (k : nat) (P : ec_point p) : ec_point p :=
  match k with
  | O => None
  | S k' => ec_add A (ec_mul A k' P) P
  end.

(** * Properties *)

(** ** Extended Euclid *)

Lemma extended_gcd_rec_spec (fuel : nat) :
  forall a b, (Z.abs_nat a < fuel)%nat ->
    exists g u v,
      extended_gcd_rec fuel a b = Ok (g, u, v) /\
      g = a * u + b * v /\
      g = (if a =? 0 then b else Z.sgn a * Z.gcd a b).
Proof.
  induction fuel as [|fuel IH]; intros a b Hfuel; [lia|].
  cbn [extended_gcd_rec].
  destruct (Z.eqb_spec a 0) as [->|Ha].
  - exists b, 0, 1. repeat split; lia.
  - assert (Hlt : (Z.abs_nat (b mod a) < fuel)%nat).
    { pose proof (Z.mod_pos_bound b a). pose proof (Z.mod_neg_bound b a). lia. }
    destruct (IH (b mod a) a Hlt) as (g & u & v & Hrec & Hbez & Hg).
    rewrite Hrec. cbn [bind].
    exists g, (v - b / a * u), u. split; [reflexivity|]. split.
    + pose proof (Z.div_mod b a Ha). nia.
    + rewrite Hg. destruct (Z.eqb_spec (b mod a) 0) as [E|E].
      * apply Z.mod_divide in E; [|exact Ha].
        assert (Hd : Z.gcd a b = Z.abs a).
        { rewrite <- Z.gcd_abs_l. apply Z.divide_gcd_iff; [lia|].
          apply Z.divide_abs_l, E. }
        rewrite Hd. pose proof (Z.abs_sgn a). lia.
      * rewrite Z.gcd_mod by exact Ha.
        pose proof (Z.mod_pos_bound b a). pose proof (Z.mod_neg_bound b a).
        assert (Hs : Z.sgn (b mod a) = Z.sgn a).
        { destruct (Z.lt_trichotomy a 0) as [H1|[H1|H1]]; [|lia|].
          - rewrite !Z.sgn_neg; lia.
          - rewrite !Z.sgn_pos; lia. }
        rewrite Hs, (Z.gcd_comm a b). reflexivity.
Qed.

(** C8: the first component is not always the gcd.  At [a = -3], [b = 5] the
    call returns [(-1, 2, 1)]: the identity [g = a*x + b*y] holds, but [g] is
    [-1] and [gcd(-3, 5)] is 1.  The sign of [g] follows that of [a], and
    nothing normalises it. *)
Lemma extended_gcd_negative_gcd :
  extended_gcd (-3) 5 = Ok (-1, 2, 1) /\ -1 <> Z.gcd (-3) 5.
Proof. split; [reflexivity | discriminate]. Qed.

(** X: for all integers [a] and [b], [extended_gcd a b] returns a triple
    [(g, x, y)] with [g = a*x + b*y], and [g] is [gcd(a, b)] up to its sign;
    it is [gcd(a, b)] itself when [a > 0], and when [a = 0] and [b >= 0]. *)
Theorem extended_gcd_bezout (a b : Z) :
  exists g x y,
    extended_gcd a b = Ok (g, x, y) /\
    g = a * x + b * y /\
    Z.abs g = Z.gcd a b /\
    (0 < a \/ (a = 0 /\ 0 <= b) -> g = Z.gcd a b).
Proof.
  destruct (extended_gcd_rec_spec (S (Z.abs_nat a)) a b) as (g & u & v & H1 & H2 & H3);
    [lia|].
  exists g, u, v. split; [exact H1|]. split; [exact H2|].
  pose proof (Z.gcd_nonneg a b) as Hnn. rewrite H3.
  destruct (Z.eqb_spec a 0) as [->|Ha].
  - pose proof (Z.gcd_0_l b) as E0. split; [lia|]. intros [H|[_ H]]; lia.
  - split.
    + destruct a; cbn [Z.sgn]; lia.
    + intros [H|[H _]]; [|contradiction]. destruct a; cbn [Z.sgn]; lia.
Qed.

(** ** Modular inverse *)

Lemma mod_inv_cases (a m : Z) :
  exists g u v,
    extended_gcd a m = Ok (g, u, v) /\ g = a * u + m * v /\
    g = (if a =? 0 then m else Z.sgn a * Z.gcd a m) /\
    mod_inv a m = (if negb (g =? 1) then Raise ValueError else py_mod u m).
Proof.
  destruct (extended_gcd_rec_spec (S (Z.abs_nat a)) a m ltac:(lia))
    as (g & u & v & H1 & H2 & H3).
  exists g, u, v. repeat split; try assumption.
  unfold mod_inv, extended_gcd. rewrite H1. reflexivity.
Qed.

(** C6: the error is also raised where an inverse exists.  [gcd(-3, 5)] is 1
    and 3 is an inverse of [-3] modulo 5, yet [mod_inv(-3, 5)] raises the
    no-inverse [ValueError]: [extended_gcd] returns [-1] there, and [mod_inv]
    compares it with 1. *)
Lemma mod_inv_raises_on_coprime :
  Z.gcd (-3) 5 = 1 /\ (-3 * 3) mod 5 = 1 /\
  mod_inv (-3) 5 = Raise ValueError.
Proof. repeat split; reflexivity. Qed.

(** The outcomes of [mod_inv] on all integers. *)
Lemma mod_inv_outcome (a m : Z) :
  (mod_inv a m = Raise ValueError <->
     a < 0 \/ Z.gcd a m <> 1 \/ (a = 0 /\ m = -1)) /\
  (0 <= a -> 0 < m ->
     (mod_inv a m = Raise ValueError <-> Z.gcd a m <> 1)) /\
  (0 < m -> mod_inv a m <> Raise ValueError ->
     exists r, mod_inv a m = Ok r /\ 0 <= r < m /\ (a * r) mod m = 1 mod m).
Proof.
  destruct (mod_inv_cases a m) as (g & u & v & _ & Hbez & Hg & Hinv).
  pose proof (Z.gcd_nonneg a m) as Hnn.
  assert (Hraise : mod_inv a m = Raise ValueError <->
                   a < 0 \/ Z.gcd a m <> 1 \/ (a = 0 /\ m = -1)).
  { rewrite Hinv. unfold py_mod.
    destruct (Z.eqb_spec g 1) as [E|E]; cbn [negb].
    - split.
      + destruct (m =? 0); discriminate.
      + intros H. exfalso. rewrite E in Hg.
        destruct (Z.eqb_spec a 0) as [->|Ha].
        * rewrite Z.gcd_0_l in H. lia.
        * destruct a; cbn [Z.sgn] in Hg; lia.
    - split; [intros _|reflexivity].
      destruct (Z.eqb_spec a 0) as [->|Ha].
      + rewrite Z.gcd_0_l. lia.
      + destruct a; cbn [Z.sgn] in Hg; lia. }
  split; [exact Hraise|]. split.
  - intros Ha Hm. rewrite Hraise. split; [|tauto].
    intros [H|[H|[-> ->]]]; lia.
  - intros Hm Hno. rewrite Hinv in *. unfold py_mod in *.
    destruct (Z.eqb_spec g 1) as [E|E]; cbn [negb] in *; [|congruence].
    destruct (Z.eqb_spec m 0) as [?|_]; [lia|].
    exists (u mod m). split; [reflexivity|]. split.
    + apply Z.mod_pos_bound, Hm.
    + rewrite Z.mul_mod_idemp_r by lia.
      replace (a * u) with (1 + (- v) * m) by lia.
      apply Z.mod_add. lia.
Qed.

(** X: for [a >= 0] and [m > 0], [mod_inv(a, m)] raises the no-inverse
    [ValueError] exactly when [gcd(a, m) <> 1]; otherwise it returns [r] with
    [0 <= r < m] and [a * r = 1 (mod m)]. *)
Theorem mod_inv_nonneg (a m : Z) :
  0 <= a -> 0 < m ->
  (mod_inv a m = Raise ValueError <-> Z.gcd a m <> 1) /\
  (Z.gcd a m = 1 ->
   exists r, mod_inv a m = Ok r /\ 0 <= r < m /\ (a * r) mod m = 1 mod m).
Proof.
  intros Ha Hm. destruct (mod_inv_outcome a m) as (_ & Hiff & Hret).
  split; [exact (Hiff Ha Hm)|].
  intros Hg. apply (Hret Hm). rewrite (Hiff Ha Hm). tauto.
Qed.

Lemma mod_inv_nonneg_witness :
  (mod_inv 3 7 = Raise ValueError <-> Z.gcd 3 7 <> 1) /\
  (Z.gcd 3 7 = 1 ->
   exists r, mod_inv 3 7 = Ok r /\ 0 <= r < 7 /\ (3 * r) mod 7 = 1 mod 7).
Proof. apply (mod_inv_nonneg 3 7); lia. Defined.

(** ** Equality of points *)

Lemma opt_eqb_eq (u v : option Z) : opt_eqb u v = true <-> u = v.
Proof.
  destruct u as [i|], v as [j|]; cbn; try (split; congruence).
  rewrite Z.eqb_eq. split; congruence.
Qed.

Lemma is_none_eq (u : option Z) : is_none u = true <-> u = None.
Proof. destruct u; cbn; split; congruence. Qed.

Lemma point_eqb_eq (P Q : Point.t) : Point.eqb P Q = true <-> P = Q.
Proof.
  unfold Point.eqb. rewrite !andb_true_iff, !opt_eqb_eq, !Z.eqb_eq.
  destruct P, Q; cbn. split.
  - intros [[[[-> ->] ->] ->] ->]. reflexivity.
  - intros H; injection H as -> -> -> -> ->. repeat split.
Qed.

(** C4 (as stated, refuted): the identity of the curve [(1, 1, 23)] and the
    identity of the curve [(2, 2, 17)] are both constructed, both without
    coordinates, and compare unequal. *)
Lemma identities_of_two_curves_differ :
  exists P Q,
    Point.init None None 1 1 23 = Ok P /\ Point.init None None 2 2 17 = Ok Q /\
    (Point.x P = None /\ Point.y P = None) /\
    (Point.x Q = None /\ Point.y Q = None) /\
    Point.eq P (Point.PointVal Q) = false.
Proof.
  exists (Point.mk None None 1 1 23), (Point.mk None None 2 2 17).
  repeat split.
Qed.

(** C4 (amended): two points are equal if and only if all five of [x], [y],
    [a], [b], [p] match exactly, an absent coordinate matching only an absent
    one; two identity points are equal if and only if they carry the same
    curve parameters. *)
Theorem point_eq_structural (P Q : Point.t) :
  (Point.eq P (Point.PointVal Q) = true <->
     Point.x P = Point.x Q /\ Point.y P = Point.y Q /\
     Point.a P = Point.a Q /\ Point.b P = Point.b Q /\ Point.p P = Point.p Q) /\
  (Point.x P = None /\ Point.y P = None /\
   Point.x Q = None /\ Point.y Q = None ->
     (Point.eq P (Point.PointVal Q) = true <->
        Point.a P = Point.a Q /\ Point.b P = Point.b Q /\
        Point.p P = Point.p Q)).
Proof.
  assert (H : Point.eq P (Point.PointVal Q) = true <->
     Point.x P = Point.x Q /\ Point.y P = Point.y Q /\
     Point.a P = Point.a Q /\ Point.b P = Point.b Q /\ Point.p P = Point.p Q).
  { cbn [Point.eq]. unfold Point.eqb.
    rewrite !andb_true_iff, !opt_eqb_eq, !Z.eqb_eq. tauto. }
  split; [exact H|].
  intros (Hx & Hy & Hx' & Hy'). rewrite H, Hx, Hy, Hx', Hy'. tauto.
Qed.

Lemma point_eq_structural_witness :
  Point.eq (Point.mk None None 2 2 17) (Point.PointVal (Point.mk None None 2 2 17))
  = true.
Proof.
  apply (proj2 (point_eq_structural (Point.mk None None 2 2 17)
                  (Point.mk None None 2 2 17))).
  - repeat split.
  - repeat split.
Defined.

(** C9: comparing a point with [None] gives [True] if and only if both of its
    coordinates are absent; the comparison is a total function of the point,
    it has no raising outcome. *)
Theorem point_eq_none (P : Point.t) :
  Point.eq P Point.NoneVal = true <-> Point.x P = None /\ Point.y P = None.
Proof. cbn [Point.eq]. rewrite andb_true_iff, !is_none_eq. tauto. Qed.

(** ** Enumeration of points: the guard on [p] *)

(** C10: with [p <= 2], [find_points_on_curve] returns two empty lists, for
    every [a], [b], [x_limit] and [max_total_points]. *)
Theorem find_points_small_modulus (a b p x_limit max_total_points : Z) :
  p <= 2 ->
  find_points_on_curve a b p x_limit max_total_points = Ok ([], []).
Proof.
  intros Hp. unfold find_points_on_curve.
  destruct (Z.leb_spec p 2); [reflexivity | lia].
Qed.

Lemma find_points_small_modulus_witness :
  2 <= 2 /\ find_points_on_curve 1 1 2 10 100 = Ok ([], []).
Proof.
  split; [lia|]. apply (find_points_small_modulus 1 1 2 10 100). lia.
Defined.

(** ** Roots of polynomials modulo a prime *)

Section PolynomialRoots.
Context {m : Z}.
Add Ring zmod_ring : (Zmod.ring_theory m).
Implicit Types (f : list (Zmod m)) (r v : Zmod m).

Lemma poly_quot_length f r : (length (poly_quot f r) <= Nat.pred (length f))%nat.
Proof.
  induction f as [|c q IH]; cbn [poly_quot length Nat.pred]; [lia|].
  destruct q as [|d q']; cbn [length Nat.pred] in *; lia.
Qed.

Lemma poly_quot_spec f r v :
  poly_eval f v =
  Zmod.add (poly_eval f r) (Zmod.mul (Zmod.sub v r) (poly_eval (poly_quot f r) v)).
Proof.
  induction f as [|c q IH]; [cbn; ring|].
  cbn [poly_quot]. destruct q as [|d q'].
  - cbn. ring.
  - cbn [poly_eval] in *. rewrite IH. ring.
Qed.

Lemma poly_unity_eval (k : nat) v :
  (0 < k)%nat ->
  poly_eval (poly_unity m k) v = Zmod.sub (Zmod.pow v (Z.of_nat k)) Zmod.one.
Proof.
  intros Hk. unfold poly_unity. cbn [poly_eval].
  assert (H : forall j, poly_eval (repeat Zmod.zero j ++ [Zmod.one]) v
                        = Zmod.pow v (Z.of_nat j)).
  { induction j as [|j IH].
    - cbn [repeat app poly_eval Z.of_nat]. rewrite Zmod.pow_0_r. ring.
    - cbn [repeat app poly_eval]. rewrite IH, Nat2Z.inj_succ.
      rewrite Zmod.pow_succ_nonneg_r by lia. ring. }
  rewrite H. destruct k as [|k]; [lia|]. cbn [Nat.pred].
  rewrite Nat2Z.inj_succ, Zmod.pow_succ_nonneg_r by lia. ring.
Qed.

Lemma poly_unity_length (k : nat) : length (poly_unity m k) = S (S (Nat.pred k)).
Proof. unfold poly_unity. cbn. rewrite length_app, repeat_length. cbn. lia. Qed.

Hypothesis Hm : Z.prime m.

Lemma poly_roots_bound (n : nat) :
  forall f, (length f <= S n)%nat ->
    (exists v, poly_eval f v <> Zmod.zero) ->
    forall roots, NoDup roots ->
      (forall r, In r roots -> poly_eval f r = Zmod.zero) ->
      (length roots <= n)%nat.
Proof.
  induction n as [|n IH]; intros f Hlen [v0 Hv0] roots Hnd Hroots.
  - destruct roots as [|r rs]; [cbn; lia|]. exfalso.
    specialize (Hroots r (or_introl eq_refl)).
    destruct f as [|c [|d q]]; cbn [length] in Hlen;
      [|cbn [poly_eval] in *|lia].
    + apply Hv0. reflexivity.
    + apply Hv0. etransitivity; [|exact Hroots]. ring.
  - destruct roots as [|r rs]; [cbn; lia|]. cbn [length].
    apply le_n_S. inversion Hnd as [|? ? Hnotin Hnd']; subst.
    pose proof (Hroots r (or_introl eq_refl)) as Hr.
    apply (IH (poly_quot f r)).
    + pose proof (poly_quot_length f r). lia.
    + exists v0. intros Hq. apply Hv0.
      rewrite (poly_quot_spec f r v0), Hr, Hq. ring.
    + exact Hnd'.
    + intros r' Hin. pose proof (Hroots r' (or_intror Hin)) as Hr'.
      rewrite (poly_quot_spec f r r'), Hr, Zmod.add_0_l in Hr'.
      apply (Zmod.mul_0_iff_prime Hm) in Hr'. destruct Hr' as [E|E]; [|exact E].
      apply Zmod.sub_eq_0 in E. subst r'. contradiction.
Qed.

End PolynomialRoots.

(** ** Quadratic non-residues exist *)

Lemma odd_prime_mod_2 (p : Z) : Z.prime p -> 3 <= p -> p mod 2 = 1.
Proof.
  intros [_ Hdiv] Hp.
  destruct (Z.eq_dec (p mod 2) 0) as [E|E].
  - exfalso. apply (Hdiv 2); [lia|]. apply Z.mod_divide; [lia | exact E].
  - pose proof (Z.mod_pos_bound p 2). lia.
Qed.

Lemma zmod_half_power (p : Z) (Hp : Z.prime p) (H3 : 3 <= p) (v : Zmod p) :
  v <> Zmod.zero ->
  Zmod.pow v ((p - 1) / 2) = Zmod.one \/
  Zmod.pow v ((p - 1) / 2) = Zmod.opp Zmod.one.
Proof.
  intros Hv. apply (Zmod.square_roots_1_prime Hp).
  pose proof (odd_prime_mod_2 p Hp H3) as Hodd.
  rewrite <- Zmod.pow_mul_r_nonneg by (try apply Z.div_pos; lia).
  replace ((p - 1) / 2 * 2) with (Z.pred p)
    by (pose proof (Z.div_mod p 2); Z.to_euclidean_division_equations; lia).
  apply Zmod.fermat_nz; assumption.
Qed.

Lemma zmod_eq_dec {m : Z} (u v : Zmod m) : {u = v} + {u <> v}.
Proof.
  destruct (Z.eq_dec (Zmod.to_Z u) (Zmod.to_Z v)) as [E|E].
  - left. apply Zmod.to_Z_inj, E.
  - right. intros ->. apply E. reflexivity.
Qed.

Lemma zmod_non_residue (p : Z) (Hp : Z.prime p) (H3 : 3 <= p) :
  exists v : Zmod p, Zmod.pow v ((p - 1) / 2) = Zmod.opp Zmod.one.
Proof.
  pose proof (odd_prime_mod_2 p Hp H3) as Hodd.
  set (k := (p - 1) / 2).
  assert (Hk : 1 <= k /\ 2 * k = p - 1)
    by (unfold k; Z.to_euclidean_division_equations; lia).
  assert (Hnz : forall v, In v (Zmod.invertibles p) -> v <> Zmod.zero).
  { intros v Hin ->. unfold Zmod.invertibles in Hin.
    destruct (Z.eqb_spec p 0); [lia|].
    apply filter_In in Hin. destruct Hin as [_ Hg].
    rewrite Zmod.to_Z_0, Z.gcd_0_l in Hg. apply Z.eqb_eq in Hg. lia. }
  destruct (Forall_Exists_dec
              (fun v : Zmod p => Zmod.pow v k = Zmod.one)
              (fun v => zmod_eq_dec (Zmod.pow v k) Zmod.one)
              (Zmod.invertibles p)) as [Hall|Hex].
  - exfalso.
    assert (Hbound : (length (Zmod.invertibles p) <= Z.to_nat k)%nat).
    { apply (poly_roots_bound Hp (Z.to_nat k) (poly_unity p (Z.to_nat k))).
      - rewrite poly_unity_length. lia.
      - exists Zmod.zero. rewrite poly_unity_eval by lia.
        rewrite Zmod.pow_0_l by lia. rewrite Zmod.sub_0_l.
        intros E. apply (f_equal Zmod.opp) in E.
        rewrite Zmod.opp_opp, Zmod.opp_0 in E.
        revert E. apply Zmod.one_neq_zero. lia.
      - rewrite Zmod.invertibles_prime by exact Hp.
        pose proof (Zmod.NoDup_elements p) as Hnd.
        destruct (Zmod.elements p); [constructor|].
        inversion Hnd; assumption.
      - intros r Hin. rewrite poly_unity_eval by lia.
        rewrite Forall_forall in Hall. rewrite Z2Nat.id by lia.
        rewrite (Hall r Hin). apply Zmod.sub_same. }
    rewrite Zmod.length_invertibles_prime in Hbound by exact Hp. lia.
  - apply Exists_exists in Hex. destruct Hex as (v & Hin & Hne).
    exists v. destruct (zmod_half_power p Hp H3 v (Hnz v Hin)) as [E|E];
      [contradiction | exact E].
Qed.

Lemma pow_as_zmod (p base e : Z) :
  0 <= e -> pow base e p = Zmod.to_Z (Zmod.pow (Zmod.of_Z p base) e).
Proof.
  intros He. unfold pow.
  rewrite Zmod.to_Z_pow_nonneg_r, Zmod.to_Z_of_Z, Z.mod_pow_l by exact He.
  reflexivity.
Qed.

Lemma non_residue_exists (p : Z) :
  Z.prime p -> 3 <= p ->
  exists z, 2 <= z < p /\ pow z ((p - 1) / 2) p = p - 1.
Proof.
  intros Hp H3. destruct (zmod_non_residue p Hp H3) as [v Hv].
  assert (Hk : 1 <= (p - 1) / 2) by (Z.to_euclidean_division_equations; lia).
  pose proof (Zmod.unsigned_pos_bound v ltac:(lia)) as Hr.
  assert (Hpow : pow (Zmod.to_Z v) ((p - 1) / 2) p = p - 1).
  { rewrite pow_as_zmod by lia. rewrite Zmod.of_Z_to_Z, Hv.
    apply Zmod.to_Z_m1_pos. lia. }
  exists (Zmod.to_Z v). split; [|exact Hpow].
  destruct (Z.eq_dec (Zmod.to_Z v) 0) as [E|E].
  { rewrite E in Hpow. unfold pow in Hpow.
    rewrite Z.pow_0_l, Z.mod_0_l in Hpow by lia. lia. }
  destruct (Z.eq_dec (Zmod.to_Z v) 1) as [E1|E1].
  { rewrite E1 in Hpow. unfold pow in Hpow.
    rewrite Z.pow_1_l, Z.mod_1_l in Hpow by lia. lia. }
  lia.
Qed.

(** ** Modular powers *)

Lemma pow_range (base e p : Z) : 0 < p -> 0 <= pow base e p < p.
Proof. intros Hp. apply Z.mod_pos_bound, Hp. Qed.

Lemma pow_mod_base (base e p : Z) : pow (base mod p) e p = pow base e p.
Proof. apply Z.mod_pow_l. Qed.

Lemma pow_pow (base e1 e2 p : Z) :
  0 <= e1 -> 0 <= e2 -> pow (pow base e1 p) e2 p = pow base (e1 * e2) p.
Proof.
  intros H1 H2. unfold pow. rewrite Z.mod_pow_l, Z.pow_mul_r by assumption.
  reflexivity.
Qed.

Lemma pow_mul_base (u v e p : Z) :
  pow (u * v) e p = (pow u e p * pow v e p) mod p.
Proof. unfold pow. rewrite Z.pow_mul_l. apply Zmult_mod. Qed.

Lemma pow_two (base p : Z) : pow base 2 p = (base * base) mod p.
Proof. unfold pow. rewrite Z.pow_2_r. reflexivity. Qed.

Lemma pow_zero_exp (base p : Z) : pow base 0 p = 1 mod p.
Proof. reflexivity. Qed.

Lemma pow_one_exp (base p : Z) : pow base 1 p = base mod p.
Proof. unfold pow. rewrite Z.pow_1_r. reflexivity. Qed.

Lemma sqrt_one_mod_prime (p u : Z) :
  Z.prime p -> 0 <= u < p -> (u * u) mod p = 1 -> u = 1 \/ u = p - 1.
Proof.
  intros Hp Hu Hsq. pose proof (Z.prime_ge_2 p Hp) as H2.
  assert (Hdiv : (p | (u - 1) * (u + 1))).
  { apply Z.mod_divide; [lia|].
    replace ((u - 1) * (u + 1)) with (u * u - 1) by ring.
    rewrite Zminus_mod, Hsq, Z.mod_1_l by lia. reflexivity. }
  apply (Z.divide_prime_mul _ _ _ Hp) in Hdiv. destruct Hdiv as [[q Hq]|[q Hq]].
  - left. assert (q = 0) by nia. lia.
  - right. assert (q = 1) by nia. lia.
Qed.

(** ** The loops of [tonelli_shanks] *)

Lemma legendre_symbol_value (a p : Z) :
  2 < p ->
  legendre_symbol a p =
  Ok (if pow (a mod p) ((p - 1) / 2) p =? p - 1 then -1
      else pow (a mod p) ((p - 1) / 2) p).
Proof.
  intros Hp. unfold legendre_symbol.
  destruct (Z.leb_spec p 2); [lia|].
  destruct (pow (a mod p) ((p - 1) / 2) p =? p - 1); reflexivity.
Qed.

Lemma legendre_symbol_is (a p v : Z) :
  2 < p -> (v = 1 \/ v = -1) ->
  (legendre_symbol a p = Ok v <->
   pow (a mod p) ((p - 1) / 2) p = (if v =? 1 then 1 else p - 1)).
Proof.
  intros Hp Hv. rewrite legendre_symbol_value by exact Hp.
  pose proof (pow_range (a mod p) ((p - 1) / 2) p ltac:(lia)) as Hr.
  destruct (Z.eqb_spec (pow (a mod p) ((p - 1) / 2) p) (p - 1)) as [E|E];
    destruct Hv as [-> | ->]; cbn [Z.eqb Pos.eqb]; split; intros H;
    try injection H as H; try rewrite H; try reflexivity; try lia.
Qed.

Lemma split_twos_spec (fuel : nat) :
  forall Q s, 0 < Q <= Z.of_nat fuel -> 0 <= s ->
    exists Q' s',
      split_twos fuel Q s = Ok (Q', s') /\
      Q' mod 2 = 1 /\ 0 < Q' /\ s <= s' /\ Q = Q' * 2 ^ (s' - s).
Proof.
  induction fuel as [|fuel IH]; intros Q s HQ Hs; [lia|].
  cbn [split_twos]. destruct (Z.eqb_spec (Q mod 2) 0) as [E|E].
  - assert (HQ2 : 0 < Q / 2 <= Z.of_nat fuel)
      by (Z.to_euclidean_division_equations; lia).
    destruct (IH (Q / 2) (s + 1) HQ2 ltac:(lia)) as (Q' & s' & Hrec & Hodd & Hpos & Hle & Heq).
    exists Q', s'. repeat split; try assumption; try lia.
    replace (s' - s) with (Z.succ (s' - (s + 1))) by lia.
    rewrite Z.pow_succ_r by lia.
    pose proof (Z.div_mod Q 2 ltac:(lia)). nia.
  - exists Q, s. rewrite Z.sub_diag, Z.pow_0_r.
    pose proof (Z.mod_pos_bound Q 2 ltac:(lia)). repeat split; lia.
Qed.

Lemma find_non_residue_spec (p z0 : Z) :
  2 < p -> z0 < p -> pow z0 ((p - 1) / 2) p = p - 1 ->
  forall (fuel : nat) z, 0 <= z <= z0 -> z0 - z <= Z.of_nat fuel ->
    exists z', find_non_residue fuel z p = Ok z' /\
               z <= z' <= z0 /\ pow z' ((p - 1) / 2) p = p - 1.
Proof.
  intros Hp Hz0 Hpow. induction fuel as [|fuel IH]; intros z Hz Hfuel.
  - assert (z = z0) by lia. subst z. cbn [find_non_residue].
    rewrite legendre_symbol_value, Z.mod_small, Hpow, Z.eqb_refl by lia.
    cbn. exists z0. repeat split; lia.
  - cbn [find_non_residue]. rewrite legendre_symbol_value by exact Hp.
    rewrite Z.mod_small by lia. cbn [bind].
    pose proof (pow_range z ((p - 1) / 2) p ltac:(lia)) as Hr.
    destruct (Z.eqb_spec (pow z ((p - 1) / 2) p) (p - 1)) as [E|E].
    + cbn. exists z. repeat split; lia.
    + assert (Hne : (pow z ((p - 1) / 2) p =? -1) = false)
        by (apply Z.eqb_neq; lia).
      rewrite Hne. cbn [negb].
      assert (z <> z0) by (intros ->; contradiction).
      destruct (Z.geb_spec (z + 1) p) as [G|G]; [lia|].
      destruct (IH (z + 1) ltac:(lia) ltac:(lia)) as (z' & Hrec & Hz' & Hpz').
      exists z'. repeat split; try assumption; lia.
Qed.

Lemma least_i_spec (p : Z) (len : nat) :
  forall (s : nat) temp,
    let i := least_i p temp (map (fun k => 1 + Z.of_nat k) (seq s len)) in
    (i = 0 /\ forall j, 1 <= j <= Z.of_nat len -> pow temp (2 ^ j) p <> 1) \/
    (exists j, 1 <= j <= Z.of_nat len /\ i = Z.of_nat s + j /\
               pow temp (2 ^ j) p = 1 /\
               forall j', 1 <= j' < j -> pow temp (2 ^ j') p <> 1).
Proof.
  induction len as [|len IH]; intros s temp; cbn [seq map least_i].
  - left. split; [reflexivity | intros j Hj; lia].
  - cbv zeta. destruct (Z.eqb_spec (pow temp 2 p) 1) as [E|E].
    + right. exists 1. repeat split; try lia. exact E.
    + assert (Hshift : forall j, 1 <= j ->
                pow (pow temp 2 p) (2 ^ j) p = pow temp (2 ^ (j + 1)) p).
      { intros j Hj. rewrite pow_pow by (try apply Z.pow_nonneg; lia).
        rewrite Z.pow_add_r, Z.pow_1_r by lia. f_equal. lia. }
      destruct (IH (S s) (pow temp 2 p)) as [[Hi Hall]|(j & Hj & Hi & Hone & Hmin)].
      * left. split; [exact Hi|]. intros j Hj.
        destruct (Z.eq_dec j 1) as [->|Hj1]; [exact E|].
        replace j with (j - 1 + 1) by lia. rewrite <- Hshift by lia.
        apply Hall. lia.
      * right. exists (j + 1). repeat split; try lia.
        -- rewrite <- Hshift by lia. exact Hone.
        -- intros j' Hj'. destruct (Z.eq_dec j' 1) as [->|Hj1]; [exact E|].
           replace j' with (j' - 1 + 1) by lia. rewrite <- Hshift by lia.
           apply Hmin. lia.
Qed.

Section TonelliShanksLoop.
Variables p n : Z.
Hypothesis Hp : Z.prime p.
Hypothesis Hp3 : 3 <= p.

Lemma ts_loop_step (M c t R : Z) :
  ts_inv p n M c t R -> t <> 1 ->
  let i := least_i p t (py_range 1 M) in
  let b := pow c (Z.shiftl 1 (M - i - 1)) p in
  let c' := pow b 2 p in
  1 <= i < M /\ ts_inv p n i c' ((t * c') mod p) ((R * b) mod p).
Proof.
  intros (HM & Ht & HR & Htp & Hcp & Hsq) Hne. cbv zeta.
  unfold py_range.
  pose proof (least_i_spec p (Z.to_nat (M - 1)) 0 t) as Hspec.
  cbv zeta in Hspec.
  set (i := least_i p t _) in *.
  destruct Hspec as [[Hi Hall]|(j & Hj & Hi & Hone & Hmin)].
  { exfalso. destruct (Z.eq_dec M 1) as [->|HM1].
    - cbn in Htp. rewrite pow_one_exp, Z.mod_small in Htp by lia. contradiction.
    - apply (Hall (M - 1)); [lia | exact Htp]. }
  cbn [Z.of_nat] in Hi. rewrite Z.add_0_l in Hi. subst j.
  assert (Hi : 1 <= i < M) by lia. split; [exact Hi|].
  assert (Hu : pow t (2 ^ (i - 1)) p = p - 1).
  { pose proof (pow_range t (2 ^ (i - 1)) p ltac:(lia)) as Hr.
    destruct (sqrt_one_mod_prime p _ Hp Hr) as [E|E]; [| |exact E].
    - rewrite <- pow_two, pow_pow by (try apply Z.pow_nonneg; lia).
      etransitivity; [|exact Hone]. f_equal.
      replace (2 ^ i) with (2 ^ Z.succ (i - 1)) by (f_equal; lia).
      rewrite Z.pow_succ_r by lia. lia.
    - exfalso. destruct (Z.eq_dec i 1) as [->|Hi1].
      + cbn in E. rewrite pow_one_exp, Z.mod_small in E by lia. contradiction.
      + apply (Hmin (i - 1)); [lia | exact E]. }
  rewrite Z.shiftl_1_l.
  assert (Hc' : pow (pow c (2 ^ (M - i - 1)) p) 2 p = pow c (2 ^ (M - i)) p).
  { rewrite pow_pow by (try apply Z.pow_nonneg; lia). f_equal.
    replace (2 ^ (M - i)) with (2 ^ Z.succ (M - i - 1)) by (f_equal; lia).
    rewrite Z.pow_succ_r by lia. lia. }
  assert (Hc'p : pow (pow c (2 ^ (M - i)) p) (2 ^ (i - 1)) p = p - 1).
  { rewrite pow_pow by (apply Z.pow_nonneg; lia).
    rewrite <- Z.pow_add_r by lia. etransitivity; [|exact Hcp].
    do 2 f_equal. lia. }
  rewrite Hc'. unfold ts_inv.
  repeat split; try lia; try (apply Z.mod_pos_bound; lia).
  - rewrite pow_mod_base, pow_mul_base, Hu, Hc'p.
    replace ((p - 1) * (p - 1)) with (1 + (p - 2) * p) by ring.
    rewrite Z.mod_add, Z.mod_1_l by lia. reflexivity.
  - rewrite <- Hc', pow_two.
    set (b := pow c (2 ^ (M - i - 1)) p).
    rewrite <- Zmult_mod, Z.mul_mod_idemp_l by lia.
    replace (R * b * (R * b)) with ((R * R) * (b * b)) by ring.
    replace (t * ((b * b) mod p) * n) with ((t * n) * ((b * b) mod p)) by ring.
    rewrite (Zmult_mod (R * R)), (Zmult_mod (t * n)), Hsq, Z.mod_mod by lia.
    reflexivity.
Qed.

Lemma ts_loop_spec (fuel : nat) :
  forall M c t R,
    ts_inv p n M c t R -> M - 1 <= Z.of_nat fuel ->
    exists R', ts_loop fuel p M c t R = Ok R' /\
               0 <= R' < p /\ (R' * R') mod p = n mod p.
Proof.
  induction fuel as [|fuel IH]; intros M c t R Hinv Hfuel.
  - destruct (Z.eqb_spec t 1) as [->|Hne].
    + cbn [ts_loop]. cbn. destruct Hinv as (_ & _ & HR & _ & _ & Hsq).
      exists R. rewrite Z.mul_1_l in Hsq. auto.
    + destruct (ts_loop_step M c t R Hinv Hne) as [Hi _]. cbn in Hfuel. lia.
  - cbn [ts_loop]. destruct (Z.eqb_spec t 1) as [->|Hne]; cbn [negb].
    + destruct Hinv as (_ & _ & HR & _ & _ & Hsq).
      exists R. rewrite Z.mul_1_l in Hsq. auto.
    + destruct (ts_loop_step M c t R Hinv Hne) as [Hi Hinv']. cbv zeta in *.
      destruct (Z.eqb_spec (least_i p t (py_range 1 M)) 0) as [E|_]; [lia|].
      apply IH; [exact Hinv' | lia].
Qed.

End TonelliShanksLoop.

(** ** [tonelli_shanks] *)

(** What [tonelli_shanks] promises about the list it returns. *)
Lemma two_roots_spec (p n u v : Z) :
  u < v -> u + v = p -> 0 <= u -> v < p -> n mod p <> 0 ->
  (u * u) mod p = n mod p -> (v * v) mod p = n mod p ->
  let roots := [u; v] in
  (length roots <= 2)%nat /\ NoDup roots /\ StronglySorted Z.lt roots /\
  (forall r, In r roots -> 0 <= r < p /\ r ^ 2 mod p = n mod p) /\
  (forall r1 r2, roots = [r1; r2] -> r1 + r2 = p) /\
  (n mod p = 0 -> roots = [0]).
Proof.
  intros Huv Hsum Hu Hv Hn Hsu Hsv. cbv zeta.
  split. { cbn. lia. }
  split. { constructor; [intros [E|[]]; lia|].
           constructor; [intros []|constructor]. }
  split. { repeat constructor. exact Huv. }
  split. { intros r [<-|[<-|[]]]; rewrite Z.pow_2_r; split; (lia || assumption). }
  split. { intros r1 r2 E. injection E as <- <-. exact Hsum. }
  intros E. contradiction.
Qed.

Lemma root_pair_spec (p n R : Z) :
  3 <= p -> p mod 2 = 1 -> n mod p <> 0 ->
  0 <= R < p -> (R * R) mod p = n mod p ->
  let roots := sorted_set [R; p - R] in
  (length roots <= 2)%nat /\ NoDup roots /\ StronglySorted Z.lt roots /\
  (forall r, In r roots -> 0 <= r < p /\ r ^ 2 mod p = n mod p) /\
  (forall r1 r2, roots = [r1; r2] -> r1 + r2 = p) /\
  (n mod p = 0 -> roots = [0]).
Proof.
  intros Hp Hodd Hn HR Hsq.
  assert (HR0 : R <> 0).
  { intros ->. rewrite Z.mul_0_l, Z.mod_0_l in Hsq by lia. congruence. }
  assert (Hne : R <> p - R).
  { intros E. replace p with (2 * R) in Hodd by lia.
    rewrite Z.mul_comm, Z.mod_mul in Hodd by lia. discriminate. }
  assert (Hopp : ((p - R) * (p - R)) mod p = n mod p).
  { replace ((p - R) * (p - R)) with (R * R + (p - 2 * R) * p) by ring.
    rewrite Z.mod_add by lia. exact Hsq. }
  cbv zeta. unfold sorted_set. cbn [fold_right insert_uniq].
  destruct (Z.ltb_spec R (p - R)) as [Hlt|Hge].
  - apply two_roots_spec; (lia || assumption).
  - destruct (Z.eqb_spec R (p - R)) as [E|_]; [contradiction|].
    apply two_roots_spec; (lia || assumption).
Qed.

(** The empty list and [[0]] as results. *)
Lemma no_roots_spec (p n : Z) :
  n mod p <> 0 ->
  let roots := @nil Z in
  (length roots <= 2)%nat /\ NoDup roots /\ StronglySorted Z.lt roots /\
  (forall r, In r roots -> 0 <= r < p /\ r ^ 2 mod p = n mod p) /\
  (forall r1 r2, roots = [r1; r2] -> r1 + r2 = p) /\
  (n mod p = 0 -> roots = [0]).
Proof.
  intros Hn. cbv zeta.
  split. { cbn. lia. }
  split. { constructor. }
  split. { constructor. }
  split. { intros r []. }
  split. { intros r1 r2 E. discriminate. }
  intros E. contradiction.
Qed.

Lemma zero_root_spec (p n : Z) :
  0 < p -> n mod p = 0 ->
  let roots := [0] in
  (length roots <= 2)%nat /\ NoDup roots /\ StronglySorted Z.lt roots /\
  (forall r, In r roots -> 0 <= r < p /\ r ^ 2 mod p = n mod p) /\
  (forall r1 r2, roots = [r1; r2] -> r1 + r2 = p) /\
  (n mod p = 0 -> roots = [0]).
Proof.
  intros Hp Hn. cbv zeta.
  split. { cbn. lia. }
  split. { constructor; [intros []|constructor]. }
  split. { repeat constructor. }
  split. { intros r [<-|[]]. rewrite Hn. split; [lia|]. apply Z.mod_0_l. lia. }
  split. { intros r1 r2 E. discriminate. }
  reflexivity.
Qed.

(** The three outcomes of [tonelli_shanks] for an odd prime modulus. *)
Lemma tonelli_shanks_cases (n p : Z) :
  Z.prime p -> p <> 2 ->
  (n mod p = 0 /\ tonelli_shanks n p = Ok [0]) \/
  (n mod p <> 0 /\ pow (n mod p) ((p - 1) / 2) p <> 1 /\
   tonelli_shanks n p = Ok []) \/
  (n mod p <> 0 /\ pow (n mod p) ((p - 1) / 2) p = 1 /\
   exists R, 0 <= R < p /\ (R * R) mod p = n mod p /\
             tonelli_shanks n p = Ok (sorted_set [R; p - R])).
Proof.
  intros Hp Hp2. pose proof (Z.prime_ge_2 p Hp) as Hge.
  assert (Hp3 : 3 <= p) by lia.
  pose proof (odd_prime_mod_2 p Hp Hp3) as Hodd.
  unfold tonelli_shanks. destruct (Z.leb_spec p 2) as [?|_]; [lia|].
  cbv zeta. destruct (Z.eqb_spec (n mod p) 0) as [Hn0|Hn0].
  { left. split; [exact Hn0 | reflexivity]. }
  pose proof (Z.mod_pos_bound n p ltac:(lia)) as Hnr.
  rewrite legendre_symbol_value by lia. rewrite Z.mod_mod by lia. cbn [bind].
  set (k := (p - 1) / 2).
  assert (Hk : 1 <= k /\ 2 * k = p - 1)
    by (unfold k; Z.to_euclidean_division_equations; lia).
  pose proof (pow_range (n mod p) k p ltac:(lia)) as Hls.
  destruct (Z.eqb_spec (pow (n mod p) k p) (p - 1)) as [Els|Els].
  { right. left. split; [exact Hn0|]. split; [lia | reflexivity]. }
  destruct (Z.eqb_spec (pow (n mod p) k p) 1) as [Eone|Eone]; cbn [negb].
  2:{ right. left. split; [exact Hn0|]. split; [exact Eone | reflexivity]. }
  right. right. split; [exact Hn0|]. split; [exact Eone|].
  assert (Hnn : (n mod p) mod p <> 0) by (rewrite Z.mod_mod; lia).
  destruct (Z.eqb_spec (p mod 4) 3) as [H43|H43].
  - exists (pow (n mod p) ((p + 1) / 4) p).
    assert (Hx : (pow (n mod p) ((p + 1) / 4) p * pow (n mod p) ((p + 1) / 4) p)
                 mod p = (n mod p) mod p).
    { rewrite <- pow_two, pow_pow by (Z.to_euclidean_division_equations; lia).
      replace ((p + 1) / 4 * 2) with (Z.succ k)
        by (unfold k; Z.to_euclidean_division_equations; lia).
      unfold pow in *. rewrite Z.pow_succ_r by lia.
      rewrite Zmult_mod, Eone, Z.mul_1_r, !Z.mod_mod by lia. reflexivity. }
    rewrite Z.mod_mod in Hx by lia.
    split; [apply pow_range; lia|]. split; [exact Hx | reflexivity].
  - destruct (split_twos_spec (Z.to_nat (p - 1)) (p - 1) 0 ltac:(lia) ltac:(lia))
      as (Q & s & HQs & HQodd & HQpos & Hs & HQ).
    rewrite HQs. cbn [bind]. rewrite Z.sub_0_r in HQ.
    destruct (non_residue_exists p Hp Hp3) as (z0 & Hz0 & Hz0pow).
    destruct (find_non_residue_spec p z0 ltac:(lia) ltac:(lia) Hz0pow
                (Z.to_nat p) 2 ltac:(lia) ltac:(lia)) as (z & Hz & Hzr & Hzpow).
    rewrite Hz. cbn [bind]. cbv zeta.
    assert (Hs1 : 1 <= s).
    { destruct (Z.eq_dec s 0) as [->|]; [|lia]. exfalso.
      rewrite Z.pow_0_r, Z.mul_1_r in HQ. rewrite <- HQ in HQodd.
      Z.to_euclidean_division_equations; lia. }
    assert (Hhalf : Q * 2 ^ (s - 1) = k).
    { replace (2 ^ s) with (2 ^ Z.succ (s - 1)) in HQ by (f_equal; lia).
      rewrite Z.pow_succ_r in HQ by lia. lia. }
    assert (Hinv : ts_inv p (n mod p) s (pow z Q p) (pow (n mod p) Q p)
                     (pow (n mod p) ((Q + 1) / 2) p)).
    { unfold ts_inv. repeat split; try lia; try (apply pow_range; lia).
      - rewrite pow_pow by (try apply Z.pow_nonneg; lia).
        rewrite Hhalf. exact Eone.
      - rewrite pow_pow by (try apply Z.pow_nonneg; lia).
        rewrite Hhalf. exact Hzpow.
      - rewrite <- pow_two, pow_pow by (Z.to_euclidean_division_equations; lia).
        replace ((Q + 1) / 2 * 2) with (Z.succ Q)
          by (Z.to_euclidean_division_equations; lia).
        unfold pow. rewrite Z.pow_succ_r by lia.
        rewrite (Z.mul_mod_idemp_l ((n mod p) ^ Q)) by lia. f_equal. ring. }
    destruct (ts_loop_spec p (n mod p) Hp Hp3 (Z.to_nat s) _ _ _ _ Hinv ltac:(lia))
      as (R & HR & HRr & HRsq).
    rewrite HR. cbn [bind]. exists R. rewrite Z.mod_mod in HRsq by lia.
    split; [exact HRr|]. split; [exact HRsq | reflexivity].
Qed.

Lemma tonelli_shanks_sound (n p : Z) :
  Z.prime p -> p <> 2 ->
  exists roots,
    tonelli_shanks n p = Ok roots /\
    (length roots <= 2)%nat /\ NoDup roots /\ StronglySorted Z.lt roots /\
    (forall r, In r roots -> 0 <= r < p /\ r ^ 2 mod p = n mod p) /\
    (forall r1 r2, roots = [r1; r2] -> r1 + r2 = p) /\
    (n mod p = 0 -> roots = [0]).
Proof.
  intros Hp Hp2. pose proof (Z.prime_ge_2 p Hp) as Hge.
  assert (Hp3 : 3 <= p) by lia.
  pose proof (odd_prime_mod_2 p Hp Hp3) as Hodd.
  destruct (tonelli_shanks_cases n p Hp Hp2)
    as [(Hn0 & Hres)|[(Hn0 & _ & Hres)|(Hn0 & _ & R & HR & Hsq & Hres)]];
    rewrite Hres; eexists; (split; [reflexivity|]).
  - apply zero_root_spec; lia.
  - apply no_roots_spec. exact Hn0.
  - apply root_pair_spec; assumption.
Qed.

(** C1: for every odd prime [p] and every integer [n], [tonelli_shanks n p]
    returns a duplicate-free ascending list of at most two roots, each root
    [r] satisfies [r^2 mod p = n mod p], two returned roots add up to [p], and
    the result is exactly [[0]] when [n = 0 (mod p)]. *)
Theorem tonelli_shanks_roots (n p : Z) :
  Z.prime p -> p <> 2 ->
  exists roots,
    tonelli_shanks n p = Ok roots /\
    (length roots <= 2)%nat /\ NoDup roots /\ StronglySorted Z.lt roots /\
    (forall r, In r roots -> 0 <= r < p /\ r ^ 2 mod p = n mod p) /\
    (forall r1 r2, roots = [r1; r2] -> r1 + r2 = p) /\
    (n mod p = 0 -> roots = [0]).
Proof. exact (tonelli_shanks_sound n p). Qed.

Lemma py_range_In (lo hi v : Z) : In v (py_range lo hi) <-> lo <= v < hi.
Proof.
  unfold py_range. rewrite in_map_iff. split.
  - intros (k & <- & Hk). apply in_seq in Hk. lia.
  - intros Hv. exists (Z.to_nat (v - lo)). split; [lia|]. apply in_seq. lia.
Qed.

Lemma primeb_sound (p : Z) : primeb p = true -> Z.prime p.
Proof.
  unfold primeb. rewrite andb_true_iff, forallb_forall.
  intros [H1 Hall]. apply Z.ltb_lt in H1. split; [exact H1|].
  intros d Hd Hdiv. specialize (Hall d (proj2 (py_range_In 2 p d) ltac:(lia))).
  apply Z.mod_divide in Hdiv; [|lia]. rewrite Hdiv in Hall. discriminate.
Qed.

Example tonelli_shanks_10_13 : tonelli_shanks 10 13 = Ok [6; 7].
Proof. vm_compute. reflexivity. Qed.

Example tonelli_shanks_2_23 : tonelli_shanks 2 23 = Ok [5; 18].
Proof. vm_compute. reflexivity. Qed.

Lemma tonelli_shanks_roots_witness :
  Z.prime 13 /\ 13 <> 2 /\
  exists roots,
    tonelli_shanks 10 13 = Ok roots /\
    (length roots <= 2)%nat /\ NoDup roots /\ StronglySorted Z.lt roots /\
    (forall r, In r roots -> 0 <= r < 13 /\ r ^ 2 mod 13 = 10 mod 13) /\
    (forall r1 r2, roots = [r1; r2] -> r1 + r2 = 13) /\
    (10 mod 13 = 0 -> roots = [0]).
Proof.
  assert (Hp : Z.prime 13) by (apply primeb_sound; vm_compute; reflexivity).
  split; [exact Hp|]. split; [discriminate|].
  apply (tonelli_shanks_roots 10 13 Hp). discriminate.
Defined.

(** ** [find_points_on_curve] *)

Example find_points_limit_zero : find_points_on_curve 1 1 23 5 0 = Ok ([0], [1]).
Proof. vm_compute. reflexivity. Qed.

(** C5: the limit is tested after a pair has been appended.  With
    [max_total_points = 0] on the curve [(1, 1, 23)] one pair is returned,
    more than the limit. *)
Lemma find_points_exceeds_zero_limit :
  Z.prime 23 /\
  exists xs ys,
    find_points_on_curve 1 1 23 5 0 = Ok (xs, ys) /\
    ~ (Z.of_nat (length xs) <= 0).
Proof.
  split; [apply primeb_sound; vm_compute; reflexivity|].
  exists [0], [1]. split; [vm_compute; reflexivity | cbn; lia].
Qed.

Lemma emit_roots_spec (a b p mx xv : Z) (roots : list Z) :
  (forall r, In r roots -> on_curve a b p xv r) ->
  forall px py count,
    scan_inv a b p mx px py count ->
    match emit_roots xv roots px py count mx with
    | inl (xs, ys) => scan_post a b p mx xs ys
    | inr (px', py', count') => scan_inv a b p mx px' py' count'
    end.
Proof.
  induction roots as [|yv rest IH]; intros Hroots px py count Hinv;
    cbn [emit_roots].
  - exact Hinv.
  - destruct Hinv as (Hall & Hcount & Hlim).
    assert (Hall' : Forall2 (on_curve a b p) (px ++ [xv]) (py ++ [yv])).
    { apply Forall2_app; [exact Hall|]. constructor; [|constructor].
      apply Hroots. left. reflexivity. }
    assert (Hlen : count + 1 = Z.of_nat (length (px ++ [xv]))).
    { rewrite length_app. cbn [length]. lia. }
    destruct (Z.geb_spec (count + 1) mx) as [Hge|Hlt].
    + split; [exact Hall'|]. lia.
    + apply IH.
      * intros r Hr. apply Hroots. right. exact Hr.
      * split; [exact Hall'|]. split; [exact Hlen|]. right. exact Hlt.
Qed.

Lemma scan_xs_spec (a b p mx : Z) :
  Z.prime p -> p <> 2 ->
  forall xs px py count,
    scan_inv a b p mx px py count ->
    exists rx ry,
      scan_xs xs a b p px py count mx = Ok (rx, ry) /\
      scan_post a b p mx rx ry.
Proof.
  intros Hp Hp2. pose proof (Z.prime_ge_2 p Hp) as Hge.
  induction xs as [|xv rest IH]; intros px py count Hinv; cbn [scan_xs].
  - exists px, py. split; [reflexivity|].
    destruct Hinv as (Hall & Hcount & Hlim). split; [exact Hall|]. lia.
  - cbv zeta.
    destruct (tonelli_shanks_sound ((pow xv 3 p + a * xv + b) mod p) p Hp Hp2)
      as (roots & Hts & _ & _ & _ & Hroots & _).
    rewrite Hts.
    assert (Hon : forall r, In r roots -> on_curve a b p xv r).
    { intros r Hr. unfold on_curve. rewrite (proj2 (Hroots r Hr)).
      rewrite Z.mod_mod by lia. unfold pow.
      rewrite <- Z.add_assoc, Z.add_mod_idemp_l by lia.
      f_equal. ring. }
    pose proof (emit_roots_spec a b p mx xv roots Hon px py count Hinv) as He.
    destruct (emit_roots xv roots px py count mx) as [[rx ry]|[[px' py'] count']].
    + exists rx, ry. split; [reflexivity | exact He].
    + apply IH. exact He.
Qed.

(** X: for an odd prime [p] and a limit of at least 1,
    [find_points_on_curve] returns two lists of the same length that hold at
    most [max_total_points] entries. *)
Theorem find_points_limit (a b p x_limit max_total_points : Z) :
  Z.prime p -> p <> 2 -> 1 <= max_total_points ->
  exists xs ys,
    find_points_on_curve a b p x_limit max_total_points = Ok (xs, ys) /\
    length xs = length ys /\
    Z.of_nat (length xs) <= max_total_points.
Proof.
  intros Hp Hp2 Hmx. pose proof (Z.prime_ge_2 p Hp) as Hge.
  unfold find_points_on_curve. destruct (Z.leb_spec p 2) as [?|_]; [lia|].
  destruct (scan_xs_spec a b p max_total_points Hp Hp2
              (py_range 0 x_limit) [] [] 0) as (xs & ys & Hscan & Hall & Hlen).
  { split; [constructor|]. split; [reflexivity | left; reflexivity]. }
  exists xs, ys. split; [exact Hscan|].
  split; [exact (Forall2_length Hall) | lia].
Qed.

Lemma find_points_limit_witness :
  exists xs ys,
    find_points_on_curve 1 1 23 23 5 = Ok (xs, ys) /\
    length xs = length ys /\
    Z.of_nat (length xs) <= 5.
Proof.
  apply (find_points_limit 1 1 23 23 5).
  - apply primeb_sound. vm_compute. reflexivity.
  - discriminate.
  - lia.
Defined.

(** ** The group law over [Zmod p] *)

Section CurveField.
Context {p : Z} (Hp : Z.prime p).
Add Ring zmod_field_ring : (Zmod.ring_theory p).
Implicit Types (A B x y d l : Zmod p) (P Q : ec_point p).
#[local] Open Scope Zmod_scope.

Lemma zmod_one_neq_zero : (1 : Zmod p) <> 0.
Proof. apply Zmod.one_neq_zero. pose proof (Z.prime_ge_2 p Hp). lia. Qed.

Lemma zmod_eqb_true x y : Zmod.eqb x y = true <-> x = y.
Proof. apply Zmod.eqb_eq. Qed.

Lemma zmod_eqb_false x y : Zmod.eqb x y = false <-> x <> y.
Proof. destruct (Zmod.eqb_spec x y); split; congruence. Qed.

Lemma mdiv_spec x y : y <> 0 -> Zmod.mdiv x y * y = x.
Proof.
  intros Hy. unfold Zmod.mdiv.
  transitivity (x * (Zmod.inv y * y)); [ring|].
  rewrite Zmod.mul_inv_same_l_prime by assumption. ring.
Qed.

Lemma mdiv_unique x y l : y <> 0 -> l * y = x -> l = Zmod.mdiv x y.
Proof.
  intros Hy Hl. apply (Zmod.mul_cancel_r_prime y _ _ Hp Hy).
  rewrite mdiv_spec by exact Hy. exact Hl.
Qed.

Lemma double_nonzero y : 3 <= p -> y <> 0 -> y + y <> 0.
Proof.
  intros H3 Hy E.
  assert (E2 : (1 + 1) * y = 0) by (rewrite <- E; ring).
  apply (Zmod.mul_0_iff_prime Hp) in E2. destruct E2 as [E2|E2]; [|contradiction].
  apply (f_equal Zmod.to_Z) in E2.
  rewrite Zmod.to_Z_add, Zmod.to_Z_0, Zmod.to_Z_1_pos, Z.mod_small in E2; lia.
Qed.

(** Points with the same abscissa are equal or opposite. *)
Lemma same_x_cases A B x y1 y2 :
  ec_on_curve A B (Some (x, y1)) -> ec_on_curve A B (Some (x, y2)) ->
  y1 = y2 \/ y1 = - y2.
Proof.
  cbn. intros H1 H2.
  apply (Zmod.square_roots_opp_prime Hp).
  rewrite !Zmod.pow_2_r. congruence.
Qed.

Lemma ec_add_on_curve A B P Q :
  3 <= p -> ec_on_curve A B P -> ec_on_curve A B Q ->
  ec_on_curve A B (ec_add A P Q).
Proof.
  intros H3 HP HQ. destruct P as [[x1 y1]|], Q as [[x2 y2]|]; cbn [ec_add];
    try assumption.
  destruct (Zmod.eqb_spec x1 x2) as [Ex|Ex]; cbn [andb].
  - subst x2. destruct (Zmod.eqb_spec y1 (- y2)) as [Ey|Ey]; [exact I|].
    destruct (same_x_cases A B x1 y1 y2 HP HQ) as [E|E]; [|contradiction].
    subst y2. rewrite Zmod.eqb_refl. cbv zeta.
    assert (Hy : y1 <> 0).
    { intros ->. apply Ey. ring. }
    pose proof (mdiv_spec (x1 * x1 + x1 * x1 + x1 * x1 + A) (y1 + y1)
                  (double_nonzero y1 H3 Hy)) as Hl.
    set (l := Zmod.mdiv _ _) in *. cbn in HP |- *.
    apply Zmod.sub_eq_0.
    transitivity
      ((y1 * y1 - (x1 * x1 * x1 + A * x1 + B))
       + (l * (y1 + y1) - (x1 * x1 + x1 * x1 + x1 * x1 + A))
         * (l * l - x1 - x1 - x1)); [ring|].
    rewrite Hl, HP. ring.
  - cbv zeta.
    assert (Hd : x2 - x1 <> 0).
    { intros E. apply Ex. symmetry. apply Zmod.sub_eq_0, E. }
    pose proof (mdiv_spec (y2 - y1) (x2 - x1) Hd) as Hl.
    set (l := Zmod.mdiv _ _) in *. cbn in HP, HQ |- *.
    assert (Hy2 : y2 = l * (x2 - x1) + y1) by (rewrite Hl; ring).
    set (x3 := l * l - x1 - x2).
    assert (K : (x2 - x1)
                * ((l * (x1 - x3) - y1) * (l * (x1 - x3) - y1)
                   - (x3 * x3 * x3 + A * x3 + B)) = 0).
    { transitivity
        ((y1 * y1 - (x1 * x1 * x1 + A * x1 + B)) * (x2 - x3)
         + ((l * (x2 - x1) + y1) * (l * (x2 - x1) + y1)
            - (x2 * x2 * x2 + A * x2 + B)) * (x3 - x1)).
      - unfold x3. ring.
      - rewrite <- Hy2, HP, HQ. ring. }
    apply (Zmod.mul_0_iff_prime Hp) in K. destruct K as [K|K]; [contradiction|].
    apply Zmod.sub_eq_0, K.
Qed.

Lemma ec_add_comm A B P Q :
  ec_on_curve A B P -> ec_on_curve A B Q -> ec_add A P Q = ec_add A Q P.
Proof.
  intros HP HQ. destruct P as [[x1 y1]|], Q as [[x2 y2]|]; cbn [ec_add];
    try reflexivity.
  destruct (Zmod.eqb_spec x1 x2) as [Ex|Ex]; cbn [andb].
  - subst x2. rewrite Zmod.eqb_refl. cbn [andb].
    destruct (Zmod.eqb_spec y1 (- y2)) as [Ey|Ey].
    + subst y1. rewrite Zmod.opp_opp, Zmod.eqb_refl. reflexivity.
    + destruct (same_x_cases A B x1 y1 y2 HP HQ) as [E|E]; [|contradiction].
      subst y2. rewrite Zmod.eqb_refl.
      destruct (Zmod.eqb_spec y1 (- y1)); [contradiction | reflexivity].
  - destruct (Zmod.eqb_spec x2 x1) as [Ex'|_]; [congruence|]. cbn [andb]. cbv zeta.
    assert (Hd : x2 - x1 <> 0).
    { intros E. apply Ex. symmetry. apply Zmod.sub_eq_0, E. }
    assert (Hd' : x1 - x2 <> 0).
    { intros E. apply Ex. apply Zmod.sub_eq_0, E. }
    pose proof (mdiv_spec (y2 - y1) (x2 - x1) Hd) as Hl.
    assert (El : Zmod.mdiv (y2 - y1) (x2 - x1) = Zmod.mdiv (y1 - y2) (x1 - x2)).
    { apply mdiv_unique; [exact Hd'|].
      transitivity (- (Zmod.mdiv (y2 - y1) (x2 - x1) * (x2 - x1))); [ring|].
      rewrite Hl. ring. }
    rewrite <- El. set (l := Zmod.mdiv (y2 - y1) (x2 - x1)) in *.
    f_equal. f_equal; [ring|].
    transitivity (l * (x1 - (l * l - x1 - x2)) - y1 + (l * (x2 - x1) - (y2 - y1)));
      [rewrite Hl; ring | ring].
Qed.

Lemma ec_add_neg A B P :
  ec_on_curve A B P -> ec_add A P (ec_neg P) = None.
Proof.
  intros _. destruct P as [[x1 y1]|]; cbn [ec_neg ec_add]; [|reflexivity].
  rewrite Zmod.opp_opp, !Zmod.eqb_refl. reflexivity.
Qed.

Lemma ec_neg_on_curve A B P : ec_on_curve A B P -> ec_on_curve A B (ec_neg P).
Proof.
  destruct P as [[x1 y1]|]; cbn; [|trivial]. intros H.
  rewrite Zmod.mul_opp_opp. exact H.
Qed.

End CurveField.

(** ** [Point.add_points] computes the group law *)

Lemma py_mod_ok (v m : Z) : m <> 0 -> py_mod v m = Ok (v mod m).
Proof. intros Hm. unfold py_mod. destruct (Z.eqb_spec m 0); [contradiction | reflexivity]. Qed.

Section Bridge.
Variables a b p : Z.
Hypothesis Hp : Z.prime p.
Hypothesis Hp3 : 3 <= p.
Add Ring zmod_bridge_ring : (Zmod.ring_theory p).

Abbreviation F := (Zmod.of_Z p).

Lemma of_Z_small_inj (u v : Z) :
  0 <= u < p -> 0 <= v < p -> F u = F v -> u = v.
Proof.
  intros Hu Hv E. apply Zmod.of_Z_inj in E.
  rewrite !Z.mod_small in E by lia. exact E.
Qed.

Lemma of_Z_eqb_small (u v : Z) :
  0 <= u < p -> 0 <= v < p -> Zmod.eqb (F u) (F v) = (u =? v).
Proof.
  intros Hu Hv. destruct (Z.eqb_spec u v) as [->|Hne].
  - apply Zmod.eqb_refl.
  - destruct (Zmod.eqb_spec (F u) (F v)) as [E|_]; [|reflexivity].
    exfalso. apply Hne. apply of_Z_small_inj; assumption.
Qed.

Lemma of_Z_pow_2 (u : Z) : F (pow u 2 p) = (F u * F u)%Zmod.
Proof.
  unfold pow. rewrite Zmod.of_Z_mod, Z.pow_2_r, Zmod.of_Z_mul. reflexivity.
Qed.

Lemma of_Z_pow_3 (u : Z) : F (pow u 3 p) = (F u * F u * F u)%Zmod.
Proof.
  unfold pow. rewrite Zmod.of_Z_mod.
  replace (u ^ 3) with (u * u * u) by ring.
  rewrite !Zmod.of_Z_mul. reflexivity.
Qed.

Lemma is_on_curve_field (xv yv : Z) :
  Point.is_on_curve (Point.mk (Some xv) (Some yv) a b p) = true <->
  ec_on_curve (F a) (F b) (Some (F xv, F yv)).
Proof.
  cbn [Point.is_on_curve Point.x Point.y Point.a Point.b Point.p ec_on_curve].
  rewrite Z.eqb_eq.
  rewrite <- of_Z_pow_2, <- of_Z_pow_3, <- Zmod.of_Z_mul, <- !Zmod.of_Z_add.
  rewrite Zmod.of_Z_inj.
  rewrite (Z.mod_small (pow yv 2 p)) by (apply pow_range; lia).
  reflexivity.
Qed.

Lemma mod_inv_field (den : Z) :
  0 < den < p ->
  exists r, mod_inv den p = Ok r /\ 0 <= r < p /\ F r = Zmod.inv (F den).
Proof.
  intros Hden.
  destruct (mod_inv_cases den p) as (g & u & v & _ & Hbez & Hg & Hinv).
  destruct (Z.eqb_spec den 0) as [?|_]; [lia|].
  assert (Hcop : Z.gcd den p = 1).
  { rewrite Z.gcd_comm. apply Z.coprime_prime_small; [exact Hp | lia]. }
  rewrite Hcop, Z.sgn_pos, Z.mul_1_l in Hg by lia. rewrite Hg in Hbez, Hinv.
  rewrite Hinv. cbn [Z.eqb Pos.eqb negb]. unfold py_mod.
  destruct (Z.eqb_spec p 0) as [?|_]; [lia|].
  exists (u mod p). split; [reflexivity|].
  split; [apply Z.mod_pos_bound; lia|].
  assert (Hnz : F den <> Zmod.zero).
  { apply Zmod.of_Z_nz. rewrite Z.mod_small; lia. }
  apply (Zmod.mul_cancel_r_prime (F den) _ _ Hp Hnz).
  rewrite Zmod.mul_inv_same_l_prime by assumption.
  rewrite Zmod.of_Z_mod, <- Zmod.of_Z_mul.
  replace (u * den) with (1 + (- v) * p) by lia.
  rewrite <- Zmod.of_Z_mod, Z.mod_add, Zmod.of_Z_mod by lia.
  apply Zmod.of_Z_1.
Qed.

Lemma valid_point_cases (P : Point.t) :
  valid_point a b p P = true ->
  P = Point.mk None None a b p \/
  exists xv yv,
    P = Point.mk (Some xv) (Some yv) a b p /\
    0 <= xv < p /\ 0 <= yv < p /\
    ec_on_curve (F a) (F b) (Some (F xv, F yv)).
Proof.
  destruct P as [[xv|] [yv|] a' b' p']; unfold valid_point;
    cbn [Point.x Point.y Point.a Point.b Point.p];
    rewrite ?andb_true_iff, ?andb_false_r, ?Z.eqb_eq, ?Z.leb_le, ?Z.ltb_lt;
    try (intros [_ H]; discriminate H).
  - intros [[[-> ->] ->] [[[[H1 H2] H3] H4] H5]]. right.
    exists xv, yv. split; [reflexivity|]. repeat split; try lia.
    apply is_on_curve_field, H5.
  - intros [[[-> ->] ->] _]. left. reflexivity.
Qed.

Lemma valid_point_affine (xv yv : Z) :
  0 <= xv < p -> 0 <= yv < p ->
  ec_on_curve (F a) (F b) (Some (F xv, F yv)) ->
  valid_point a b p (Point.mk (Some xv) (Some yv) a b p) = true.
Proof.
  intros Hx Hy Hon. unfold valid_point.
  cbn [Point.x Point.y Point.a Point.b Point.p].
  rewrite !Z.eqb_refl. cbn [andb].
  rewrite (proj2 (is_on_curve_field xv yv) Hon).
  rewrite !andb_true_iff, !Z.leb_le, !Z.ltb_lt. repeat split; lia.
Qed.

Lemma valid_point_identity :
  valid_point a b p (Point.mk None None a b p) = true.
Proof.
  unfold valid_point. cbn [Point.x Point.y Point.a Point.b Point.p].
  rewrite !Z.eqb_refl. reflexivity.
Qed.

Lemma init_identity : Point.init None None a b p = Ok (Point.mk None None a b p).
Proof. reflexivity. Qed.

Lemma init_affine (xv yv : Z) :
  ec_on_curve (F a) (F b) (Some (F xv, F yv)) ->
  Point.init (Some xv) (Some yv) a b p = Ok (Point.mk (Some xv) (Some yv) a b p).
Proof.
  intros Hon. unfold Point.init. cbn [is_none andb].
  destruct (Z.leb_spec p 2); [lia|].
  rewrite (proj2 (is_on_curve_field xv yv) Hon). reflexivity.
Qed.

Lemma of_Z_opp_mod (v : Z) : F ((- v) mod p) = Zmod.opp (F v).
Proof. rewrite Zmod.of_Z_mod. apply Zmod.of_Z_opp. Qed.

(** The last step of [add_points]: from the slope to the new point. *)
Lemma add_points_finish (x1 y1 x2 l : Z) (lf : Zmod p) :
  F l = lf ->
  ec_on_curve (F a) (F b)
    (Some ((lf * lf - F x1 - F x2)%Zmod,
           (lf * (F x1 - (lf * lf - F x1 - F x2)) - F y1)%Zmod)) ->
  exists R,
    (x3 <- py_mod (pow l 2 p - x1 - x2) p ;;
     y3 <- py_mod (l * (x1 - x3) - y1) p ;;
     Point.init (Some x3) (Some y3) a b p) = Ok R /\
    valid_point a b p R = true /\
    to_ec p R = Some ((lf * lf - F x1 - F x2)%Zmod,
                      (lf * (F x1 - (lf * lf - F x1 - F x2)) - F y1)%Zmod).
Proof.
  intros Hl Hon.
  rewrite py_mod_ok by lia. cbn [bind]. rewrite py_mod_ok by lia. cbn [bind].
  set (x3 := (pow l 2 p - x1 - x2) mod p).
  set (y3 := (l * (x1 - x3) - y1) mod p).
  assert (Hx3 : F x3 = (lf * lf - F x1 - F x2)%Zmod).
  { unfold x3. rewrite Zmod.of_Z_mod, !Zmod.of_Z_sub, of_Z_pow_2, Hl. reflexivity. }
  assert (Hy3 : F y3 = (lf * (F x1 - (lf * lf - F x1 - F x2)) - F y1)%Zmod).
  { unfold y3. rewrite Zmod.of_Z_mod, Zmod.of_Z_sub, Zmod.of_Z_mul, Zmod.of_Z_sub.
    rewrite Hx3, Hl. reflexivity. }
  rewrite <- Hy3, <- Hx3 in Hon |- *.
  exists (Point.mk (Some x3) (Some y3) a b p).
  split; [apply init_affine, Hon|]. split; [|reflexivity].
  apply valid_point_affine; try assumption;
    try (apply Z.mod_pos_bound; lia).
Qed.

Lemma add_points_ec (P Q : Point.t) :
  valid_point a b p P = true -> valid_point a b p Q = true ->
  exists R,
    Point.add_points P Q = Ok R /\
    valid_point a b p R = true /\
    to_ec p R = ec_add (F a) (to_ec p P) (to_ec p Q).
Proof.
  intros HP HQ.
  pose proof (ec_add_on_curve Hp (F a) (F b) (to_ec p P) (to_ec p Q) Hp3) as Hclosed.
  destruct (valid_point_cases P HP) as [->|(x1 & y1 & -> & Hx1 & Hy1 & Hon1)];
    destruct (valid_point_cases Q HQ) as [->|(x2 & y2 & -> & Hx2 & Hy2 & Hon2)];
    unfold Point.add_points;
    cbn [Point.x Point.y Point.a Point.b Point.p];
    rewrite !Z.eqb_refl; cbn [negb orb];
    try (eexists; split; [reflexivity|]; split; [assumption | reflexivity]).
  change (to_ec p (Point.mk (Some x1) (Some y1) a b p))
    with (Some (F x1, F y1)) in *.
  change (to_ec p (Point.mk (Some x2) (Some y2) a b p))
    with (Some (F x2, F y2)) in *.
  specialize (Hclosed Hon1 Hon2).
  cbn [ec_add] in Hclosed |- *.
  assert (Hopp : Zmod.eqb (F y1) (Zmod.opp (F y2)) = (y1 =? (- y2) mod p)).
  { rewrite <- of_Z_opp_mod. apply of_Z_eqb_small; [lia|].
    apply Z.mod_pos_bound. lia. }
  rewrite !of_Z_eqb_small in Hclosed |- * by assumption.
  rewrite Hopp in Hclosed |- *.
  destruct (Z.eqb_spec x1 x2) as [Ex|Ex]; cbn [andb] in Hclosed |- *.
  - subst x2. cbn [need bind]. rewrite py_mod_ok by lia. cbn [bind opt_eqb].
    destruct (Z.eqb_spec y1 ((- y2) mod p)) as [Ey|Ey].
    + exists (Point.mk None None a b p).
      split; [reflexivity|]. split; [apply valid_point_identity | reflexivity].
    + assert (E : y1 = y2).
      { destruct (same_x_cases Hp (F a) (F b) (F x1) (F y1) (F y2) Hon1 Hon2) as [E|E].
        - apply of_Z_small_inj; assumption.
        - exfalso. apply Ey. rewrite <- of_Z_opp_mod in E.
          apply of_Z_small_inj; [lia | apply Z.mod_pos_bound; lia | exact E]. }
      subst y2. rewrite Z.eqb_refl in Hclosed |- *. cbv zeta in Hclosed.
      assert (Hy0 : y1 <> 0).
      { intros ->. apply Ey. rewrite Z.opp_0, Z.mod_0_l; lia. }
      destruct (Z.eqb_spec y1 0) as [?|_]; [contradiction|].
      rewrite !py_mod_ok by lia. cbn [bind].
      assert (Hden : 0 < (2 * y1) mod p < p).
      { pose proof (Z.mod_pos_bound (2 * y1) p ltac:(lia)).
        assert ((2 * y1) mod p <> 0); [|lia].
        intros E. apply Z.mod_divide in E; [|lia].
        apply (Z.divide_prime_mul _ _ _ Hp) in E. destruct E as [E|E];
          apply Z.divide_pos_le in E; lia. }
      destruct (mod_inv_field _ Hden) as (r & Hr & Hrr & Hrf).
      rewrite Hr. cbn [bind]. rewrite py_mod_ok by lia. cbn [bind].
      apply add_points_finish; [|exact Hclosed].
      rewrite Zmod.of_Z_mod, Zmod.of_Z_mul, Hrf.
      unfold Zmod.mdiv. f_equal.
      * rewrite Zmod.of_Z_mod.
        replace (3 * pow x1 2 p + a)
          with (pow x1 2 p + pow x1 2 p + pow x1 2 p + a) by ring.
        rewrite !Zmod.of_Z_add, of_Z_pow_2. reflexivity.
      * f_equal. replace (2 * y1) with (y1 + y1) by ring.
        rewrite Zmod.of_Z_mod. apply Zmod.of_Z_add.
  - cbn [need bind]. rewrite !py_mod_ok by lia. cbn [bind]. cbv zeta in Hclosed.
    assert (Hden : 0 < (x2 - x1) mod p < p).
    { pose proof (Z.mod_pos_bound (x2 - x1) p ltac:(lia)).
      assert ((x2 - x1) mod p <> 0); [|lia].
      intros E. apply Z.mod_divide in E; [|lia]. destruct E as [q Hq].
      assert (q = 0) by nia. lia. }
    destruct (mod_inv_field _ Hden) as (r & Hr & Hrr & Hrf).
    rewrite Hr. cbn [bind]. rewrite py_mod_ok by lia. cbn [bind].
    apply add_points_finish; [|exact Hclosed].
    rewrite Zmod.of_Z_mod, Zmod.of_Z_mul, Hrf, !Zmod.of_Z_mod, !Zmod.of_Z_sub.
    reflexivity.
Qed.

Lemma valid_point_on_curve (P : Point.t) :
  valid_point a b p P = true -> ec_on_curve (F a) (F b) (to_ec p P).
Proof.
  intros HP. destruct (valid_point_cases P HP) as [->|(xv & yv & -> & _ & _ & Hon)].
  - exact I.
  - exact Hon.
Qed.

Lemma to_ec_inj (P Q : Point.t) :
  valid_point a b p P = true -> valid_point a b p Q = true ->
  to_ec p P = to_ec p Q -> P = Q.
Proof.
  intros HP HQ E.
  destruct (valid_point_cases P HP) as [->|(x1 & y1 & -> & Hx1 & Hy1 & _)];
    destruct (valid_point_cases Q HQ) as [->|(x2 & y2 & -> & Hx2 & Hy2 & _)];
    try reflexivity; try discriminate E.
  change (Some (F x1, F y1) = Some (F x2, F y2)) in E.
  assert (E12 : F x1 = F x2 /\ F y1 = F y2).
  { remember (F x1) as u1. remember (F x2) as u2.
    remember (F y1) as v1. remember (F y2) as v2.
    injection E as -> ->. split; reflexivity. }
  destruct E12 as [E1 E2].
  apply of_Z_small_inj in E1; [|assumption..].
  apply of_Z_small_inj in E2; [|assumption..].
  subst. reflexivity.
Qed.

Lemma to_ec_none (P : Point.t) :
  valid_point a b p P = true ->
  (to_ec p P = None <-> Point.eq P (Point.PointVal (Point.mk None None a b p)) = true).
Proof.
  intros HP. cbn [Point.eq]. rewrite point_eqb_eq.
  destruct (valid_point_cases P HP) as [->|(x1 & y1 & -> & _)].
  - split; reflexivity.
  - split; discriminate.
Qed.

Lemma add_points_comm (P Q : Point.t) :
  valid_point a b p P = true -> valid_point a b p Q = true ->
  Point.add_points P Q = Point.add_points Q P.
Proof.
  intros HP HQ.
  destruct (add_points_ec P Q HP HQ) as (R & HR & HvR & HeR).
  destruct (add_points_ec Q P HQ HP) as (R' & HR' & HvR' & HeR').
  rewrite HR, HR'. f_equal. apply to_ec_inj; try assumption.
  rewrite HeR, HeR'.
  apply (ec_add_comm Hp (F a) (F b));
    apply valid_point_on_curve; assumption.
Qed.

(** *** The accumulator of the order search *)

Lemma accumulate_valid (G : Point.t) :
  valid_point a b p G = true ->
  forall k, exists Q, accumulate G k = Ok Q /\ valid_point a b p Q = true.
Proof.
  intros HG. induction k as [|k [Q [HQ HvQ]]]; cbn [accumulate].
  - exists G. split; [reflexivity | exact HG].
  - rewrite HQ. cbn [bind].
    destruct (add_points_ec Q G HvQ HG) as (R & HR & HvR & _).
    exists R. split; assumption.
Qed.

Lemma order_loop_spec (G : Point.t) (max_iterations : Z) :
  valid_point a b p G = true ->
  let O := Point.mk None None a b p in
  forall (fuel j : nat) (current : Point.t),
    accumulate G j = Ok current ->
    max_iterations - Z.of_nat j <= Z.of_nat fuel ->
    (order_loop fuel G O current (Z.of_nat j + 1) max_iterations = Ok None /\
     forall k Q, (j < k)%nat -> Z.of_nat k <= max_iterations ->
                 accumulate G k = Ok Q -> Point.eq Q (Point.PointVal O) = false)
    \/
    (exists k,
       (j < k)%nat /\ Z.of_nat k <= max_iterations /\
       order_loop fuel G O current (Z.of_nat j + 1) max_iterations
         = Ok (Some (Z.of_nat k + 1)) /\
       accumulate G k = Ok O /\
       forall k' Q, (j < k' < k)%nat -> accumulate G k' = Ok Q ->
                    Point.eq Q (Point.PointVal O) = false).
Proof.
  intros HG O. induction fuel as [|fuel IH]; intros j current Hacc Hfuel;
    cbn [order_loop].
  - destruct (Z.leb_spec (Z.of_nat j + 1) max_iterations) as [Hle|Hgt]; [lia|].
    left. split; [reflexivity|]. intros k Q Hk Hmax. lia.
  - destruct (Z.leb_spec (Z.of_nat j + 1) max_iterations) as [Hle|Hgt].
    2:{ left. split; [reflexivity|]. intros k Q Hk Hmax. lia. }
    destruct (accumulate_valid G HG j) as (C & HC & HvC).
    rewrite Hacc in HC. injection HC as <-.
    destruct (add_points_ec current G HvC HG) as (R & HR & HvR & _).
    rewrite HR. cbn [bind].
    assert (HaccS : accumulate G (S j) = Ok R).
    { cbn [accumulate]. rewrite Hacc. exact HR. }
    destruct (Point.eq R (Point.PointVal O)) eqn:Eq.
    + right. exists (S j). cbn [Point.eq] in Eq. apply point_eqb_eq in Eq. subst R.
      split; [lia|]. split; [lia|]. split; [|split; [exact HaccS|]].
      * do 2 f_equal. lia.
      * intros k' Q Hk'. lia.
    + replace (Z.of_nat j + 1 + 1) with (Z.of_nat (S j) + 1) by lia.
      destruct (IH (S j) R HaccS ltac:(lia))
        as [[Hnone Hall]|(k & Hk & Hkmax & Hres & Hreach & Hmin)].
      * left. split; [exact Hnone|]. intros k Q Hk Hmax HQ.
        destruct (Nat.eq_dec k (S j)) as [->|Hne].
        -- rewrite HaccS in HQ. injection HQ as <-. exact Eq.
        -- apply (Hall k Q); [lia | exact Hmax | exact HQ].
      * right. exists k. repeat split; try assumption; try lia.
        intros k' Q Hk' HQ.
        destruct (Nat.eq_dec k' (S j)) as [->|Hne].
        -- rewrite HaccS in HQ. injection HQ as <-. exact Eq.
        -- apply (Hmin k' Q); [lia | exact HQ].
Qed.

End Bridge.

(** ** Commutativity of [Point.__add__] *)

Lemma valid_point_params (a b p : Z) (P : Point.t) :
  valid_point a b p P = true ->
  Point.a P = a /\ Point.b P = b /\ Point.p P = p.
Proof.
  unfold valid_point. rewrite !andb_true_iff, !Z.eqb_eq. tauto.
Qed.

Lemma odd_prime_ge_3 (p : Z) : Z.prime p -> p <> 2 -> 3 <= p.
Proof. intros Hp Hp2. pose proof (Z.prime_ge_2 p Hp). lia. Qed.

(** C3: on a curve [(a, b, p)] with [p] an odd prime, for every two valid
    points [P] and [Q] (the identity included), [P + Q] and [Q + P] both
    return a point and the two results compare equal. *)
Theorem point_add_commutative (a b p : Z) (P Q : Point.t) :
  Z.prime p -> p <> 2 ->
  valid_point a b p P = true -> valid_point a b p Q = true ->
  exists R R',
    Point.add P (Point.PointVal Q) = Ok R /\
    Point.add Q (Point.PointVal P) = Ok R' /\
    Point.eq R (Point.PointVal R') = true.
Proof.
  intros Hp Hp2 HP HQ. pose proof (odd_prime_ge_3 p Hp Hp2) as Hp3.
  destruct (add_points_ec a b p Hp Hp3 P Q HP HQ) as (R & HR & _ & _).
  exists R, R. cbn [Point.add Point.eq].
  rewrite <- (add_points_comm a b p Hp Hp3 P Q HP HQ).
  split; [exact HR|]. split; [exact HR|]. apply point_eqb_eq. reflexivity.
Qed.

Example add_3_10_and_0_1 :
  Point.add (Point.mk (Some 3) (Some 10) 1 1 23)
            (Point.PointVal (Point.mk (Some 0) (Some 1) 1 1 23))
  = Ok (Point.mk (Some 6) (Some 4) 1 1 23).
Proof. vm_compute. reflexivity. Qed.

Lemma point_add_commutative_witness :
  Z.prime 23 /\ 23 <> 2 /\
  valid_point 1 1 23 (Point.mk (Some 3) (Some 10) 1 1 23) = true /\
  valid_point 1 1 23 (Point.mk (Some 0) (Some 1) 1 1 23) = true /\
  exists R R',
    Point.add (Point.mk (Some 3) (Some 10) 1 1 23)
              (Point.PointVal (Point.mk (Some 0) (Some 1) 1 1 23)) = Ok R /\
    Point.add (Point.mk (Some 0) (Some 1) 1 1 23)
              (Point.PointVal (Point.mk (Some 3) (Some 10) 1 1 23)) = Ok R' /\
    Point.eq R (Point.PointVal R') = true.
Proof.
  assert (Hp : Z.prime 23) by (apply primeb_sound; vm_compute; reflexivity).
  split; [exact Hp|]. split; [discriminate|].
  split; [vm_compute; reflexivity|]. split; [vm_compute; reflexivity|].
  apply (point_add_commutative 1 1 23 _ _ Hp).
  - discriminate.
  - vm_compute. reflexivity.
  - vm_compute. reflexivity.
Defined.

(** ** The iteration cap of [find_order_brute_force] *)

Lemma find_order_outcome (start_time end_time a b p : Z) (G : Point.t) :
  Z.prime p -> p <> 2 -> valid_point a b p G = true ->
  let O := Point.mk None None a b p in
  (Point.x G = None ->
   find_order_brute_force start_time end_time G = Ok (Some 1, 0)) /\
  (Point.x G <> None ->
   (find_order_brute_force start_time end_time G
      = Ok (None, end_time - start_time) /\
    forall k Q, (0 < k)%nat -> Z.of_nat k <= 2 * p + 2 ->
                accumulate G k = Ok Q ->
                Point.eq Q (Point.PointVal O) = false)
   \/
   (exists k,
      (0 < k)%nat /\ Z.of_nat k <= 2 * p + 2 /\
      find_order_brute_force start_time end_time G
        = Ok (Some (Z.of_nat k + 1), end_time - start_time) /\
      accumulate G k = Ok O /\
      forall k' Q, (0 < k' < k)%nat -> accumulate G k' = Ok Q ->
                   Point.eq Q (Point.PointVal O) = false)).
Proof.
  intros Hp Hp2 HG O. pose proof (odd_prime_ge_3 p Hp Hp2) as Hp3.
  destruct (valid_point_params a b p G HG) as (Ha & Hb & Hpp).
  unfold find_order_brute_force. split.
  - intros Hx. rewrite Hx. reflexivity.
  - intros Hx. destruct (Point.x G) as [xv|] eqn:Ex; [|contradiction].
    cbn [is_none]. rewrite Ha, Hb, Hpp. cbn [Point.init is_none andb bind].
    destruct (order_loop_spec a b p Hp Hp3 G (2 * p + 2) HG
                (Z.to_nat (2 * p + 2)) 0%nat G eq_refl ltac:(lia))
      as [[Hnone Hall]|(k & Hk & Hkmax & Hres & Hreach & Hmin)].
    + left. cbn [Z.of_nat Z.add] in Hnone. rewrite Hnone. cbn [bind].
      split; [reflexivity | exact Hall].
    + right. exists k. cbn [Z.of_nat Z.add] in Hres. rewrite Hres. cbn [bind].
      repeat split; assumption.
Qed.



(** After five additions the accumulator of [(3, 10)] on the curve
    [(1, 1, 23)] is not yet the identity: with the bound at 5 the loop ends
    on its [else] branch. *)
Example order_loop_ends_on_bound :
  order_loop 5 (Point.mk (Some 3) (Some 10) 1 1 23) (Point.mk None None 1 1 23)
             (Point.mk (Some 3) (Some 10) 1 1 23) 1 5
  = Ok None.
Proof. vm_compute. reflexivity. Qed.

Example order_of_3_10 :
  find_order_brute_force 0 5 (Point.mk (Some 3) (Some 10) 1 1 23)
  = Ok (Some 28, 5).
Proof. vm_compute. reflexivity. Qed.


(** * Further properties *)

(** ** Square roots: completeness *)

Lemma insert_uniq_In (u v : Z) (l : list Z) :
  In v (insert_uniq u l) <-> v = u \/ In v l.
Proof.
  induction l as [|h tl IH]; cbn [insert_uniq In].
  - intuition congruence.
  - destruct (Z.ltb_spec u h) as [?|?]; [cbn [In]; intuition congruence|].
    destruct (Z.eqb_spec u h) as [->|?]; cbn [In].
    + intuition congruence.
    + rewrite IH. intuition congruence.
Qed.

Lemma sorted_set_In (v : Z) (l : list Z) : In v (sorted_set l) <-> In v l.
Proof.
  unfold sorted_set. induction l as [|h tl IH]; cbn [fold_right In].
  - reflexivity.
  - rewrite insert_uniq_In, IH. intuition congruence.
Qed.

(** A non-zero square has Legendre power 1 (Fermat). *)
Lemma square_half_power (p n r : Z) :
  Z.prime p -> 3 <= p -> n mod p <> 0 -> (r * r) mod p = n mod p ->
  pow (n mod p) ((p - 1) / 2) p = 1.
Proof.
  intros Hp Hp3 Hn Hr.
  pose proof (odd_prime_mod_2 p Hp Hp3) as Hodd.
  assert (Hk : 0 <= (p - 1) / 2 /\ 2 * ((p - 1) / 2) = p - 1)
    by (Z.to_euclidean_division_equations; lia).
  assert (Hr0 : r mod p <> 0).
  { intros E. apply Hn. rewrite <- Hr, Zmult_mod, E, Z.mul_0_l. apply Z.mod_0_l. lia. }
  rewrite <- Hr, pow_mod_base. unfold pow.
  rewrite <- Z.pow_2_r, <- Z.pow_mul_r by lia.
  replace (2 * ((p - 1) / 2)) with (p - 1) by lia.
  apply Z.fermat_nz; assumption.
Qed.

Lemma same_square_mod_prime (p r R : Z) :
  Z.prime p -> 0 <= r < p -> 0 < R < p ->
  (r * r) mod p = (R * R) mod p -> r = R \/ r = p - R.
Proof.
  intros Hp Hr HR E.
  assert (Hdiv : (p | (r - R) * (r + R))).
  { apply Z.mod_divide; [lia|].
    replace ((r - R) * (r + R)) with (r * r - R * R) by ring.
    rewrite Zminus_mod, E, Z.sub_diag. apply Z.mod_0_l. lia. }
  apply (Z.divide_prime_mul _ _ _ Hp) in Hdiv. destruct Hdiv as [[q Hq]|[q Hq]].
  - left. assert (q = 0) by nia. lia.
  - right. assert (q = 1) by nia. lia.
Qed.

Lemma tonelli_shanks_exact (n p : Z) :
  Z.prime p -> p <> 2 ->
  exists roots,
    tonelli_shanks n p = Ok roots /\
    forall r, In r roots <-> (0 <= r < p /\ (r * r) mod p = n mod p).
Proof.
  intros Hp Hp2. pose proof (Z.prime_ge_2 p Hp) as Hge.
  assert (Hp3 : 3 <= p) by lia.
  destruct (tonelli_shanks_cases n p Hp Hp2)
    as [(Hn0 & Hres)|[(Hn0 & Hls & Hres)|(Hn0 & _ & R & HR & Hsq & Hres)]];
    rewrite Hres; eexists; (split; [reflexivity|]); intros r; split.
  - intros [<-|[]]. rewrite Hn0. split; [lia|]. apply Z.mod_0_l. lia.
  - intros [Hr Hsq]. left. rewrite Hn0 in Hsq.
    apply Z.mod_divide in Hsq; [|lia].
    apply (Z.divide_prime_mul _ _ _ Hp) in Hsq.
    assert (Hd : (p | r)) by tauto. destruct Hd as [q Hq].
    assert (q = 0) by nia. lia.
  - intros [].
  - intros [Hr Hsq]. exfalso. apply Hls.
    apply (square_half_power p n r); assumption.
  - intros Hin. rewrite sorted_set_In in Hin.
    assert (HR0 : R <> 0).
    { intros ->. rewrite Z.mul_0_l, Z.mod_0_l in Hsq by lia. congruence. }
    cbn [In] in Hin. destruct Hin as [<-|[<-|[]]].
    + split; [lia | exact Hsq].
    + split; [lia|].
      replace ((p - R) * (p - R)) with (R * R + (p - 2 * R) * p) by ring.
      rewrite Z.mod_add by lia. exact Hsq.
  - intros [Hr Hrsq]. rewrite sorted_set_In. cbn [In].
    assert (HR0 : R <> 0).
    { intros ->. rewrite Z.mul_0_l, Z.mod_0_l in Hsq by lia. congruence. }
    destruct (same_square_mod_prime p r R Hp Hr ltac:(lia)) as [->| ->].
    + congruence.
    + left. reflexivity.
    + right. left. reflexivity.
Qed.

(** X: for an odd prime [p], the list returned by [tonelli_shanks n p] holds
    exactly the square roots of [n] modulo [p] that lie in [[0, p)]. *)
Theorem tonelli_shanks_all_roots (n p : Z) :
  Z.prime p -> p <> 2 ->
  exists roots,
    tonelli_shanks n p = Ok roots /\
    forall r, In r roots <-> (0 <= r < p /\ (r * r) mod p = n mod p).
Proof. exact (tonelli_shanks_exact n p). Qed.

Lemma tonelli_shanks_all_roots_witness :
  exists roots,
    tonelli_shanks 10 13 = Ok roots /\
    forall r, In r roots <-> (0 <= r < 13 /\ (r * r) mod 13 = 10 mod 13).
Proof.
  apply (tonelli_shanks_all_roots 10 13).
  - apply primeb_sound. vm_compute. reflexivity.
  - discriminate.
Defined.

(** ** The Legendre symbol *)

(** X: for an odd prime [p], [legendre_symbol a p] returns 0, 1 or -1; it is
    0 exactly when [p] divides [a], and 1 exactly when [a] is a non-zero
    square modulo [p] (Euler's criterion). *)
Theorem legendre_symbol_euler (a p : Z) :
  Z.prime p -> p <> 2 ->
  exists v,
    legendre_symbol a p = Ok v /\
    (v = 0 \/ v = 1 \/ v = -1) /\
    (v = 0 <-> a mod p = 0) /\
    (v = 1 <-> a mod p <> 0 /\ exists r, (r * r) mod p = a mod p).
Proof.
  intros Hp Hp2. pose proof (Z.prime_ge_2 p Hp) as Hge.
  assert (Hp3 : 3 <= p) by lia.
  assert (Hk : 1 <= (p - 1) / 2) by (Z.to_euclidean_division_equations; lia).
  rewrite legendre_symbol_value by lia.
  set (ls := pow (a mod p) ((p - 1) / 2) p).
  assert (Hls : (a mod p = 0 /\ ls = 0) \/
                (a mod p <> 0 /\ (ls = 1 \/ ls = p - 1))).
  { destruct (Z.eq_dec (a mod p) 0) as [E|E].
    - left. split; [exact E|]. unfold ls, pow.
      rewrite E, Z.pow_0_l, Z.mod_0_l; lia.
    - right. split; [exact E|]. unfold ls.
      rewrite pow_as_zmod by lia.
      assert (Hnz : Zmod.of_Z p (a mod p) <> Zmod.zero).
      { apply Zmod.of_Z_nz. rewrite Z.mod_mod; lia. }
      destruct (zmod_half_power p Hp Hp3 _ Hnz) as [-> | ->].
      + left. apply Zmod.to_Z_1_pos. lia.
      + right. apply Zmod.to_Z_m1_pos. lia. }
  assert (Hsquare : ls = 1 <->
                    a mod p <> 0 /\ exists r, (r * r) mod p = a mod p).
  { split.
    - intros E.
      destruct (tonelli_shanks_cases a p Hp Hp2)
        as [(Hn0 & _)|[(_ & Hne & _)|(Hn0 & _ & R & _ & Hsq & _)]].
      + destruct Hls as [[_ E0]|[Hne _]]; [lia | contradiction].
      + contradiction.
      + split; [exact Hn0|]. exists R. exact Hsq.
    - intros [Hn0 [r Hr]]. apply (square_half_power p a r); assumption. }
  destruct Hls as [[Ha E0]|[Ha [E1|Em]]].
  - exists 0. rewrite E0. destruct (Z.eqb_spec 0 (p - 1)); [lia|].
    split; [reflexivity|]. split; [tauto|]. split; [tauto|].
    rewrite <- Hsquare. lia.
  - exists 1. rewrite E1. destruct (Z.eqb_spec 1 (p - 1)); [lia|].
    split; [reflexivity|]. split; [tauto|]. split; [split; [discriminate | contradiction]|].
    rewrite <- Hsquare. tauto.
  - exists (-1). rewrite Em, Z.eqb_refl.
    split; [reflexivity|]. split; [tauto|]. split; [split; [discriminate | contradiction]|].
    rewrite <- Hsquare. split; [discriminate | lia].
Qed.

Lemma legendre_symbol_euler_witness :
  exists v,
    legendre_symbol 10 13 = Ok v /\
    (v = 0 \/ v = 1 \/ v = -1) /\
    (v = 0 <-> 10 mod 13 = 0) /\
    (v = 1 <-> 10 mod 13 <> 0 /\ exists r, (r * r) mod 13 = 10 mod 13).
Proof.
  apply (legendre_symbol_euler 10 13).
  - apply primeb_sound. vm_compute. reflexivity.
  - discriminate.
Defined.

(** ** Curve validation *)

(** ** Group laws of [Point] *)

(** X: on a curve over an odd prime, the sum of two valid points never
    raises: it is again a valid point (reduced coordinates, on the curve). *)
Theorem point_add_closed (a b p : Z) (P Q : Point.t) :
  Z.prime p -> p <> 2 ->
  valid_point a b p P = true -> valid_point a b p Q = true ->
  exists R,
    Point.add P (Point.PointVal Q) = Ok R /\ valid_point a b p R = true.
Proof.
  intros Hp Hp2 HP HQ. pose proof (odd_prime_ge_3 p Hp Hp2) as Hp3.
  destruct (add_points_ec a b p Hp Hp3 P Q HP HQ) as (R & HR & HvR & _).
  exists R. split; assumption.
Qed.

Lemma point_add_closed_witness :
  exists R,
    Point.add (Point.mk (Some 3) (Some 10) 1 1 23)
              (Point.PointVal (Point.mk (Some 3) (Some 10) 1 1 23)) = Ok R /\
    valid_point 1 1 23 R = true.
Proof.
  apply (point_add_closed 1 1 23).
  - apply primeb_sound. vm_compute. reflexivity.
  - discriminate.
  - vm_compute. reflexivity.
  - vm_compute. reflexivity.
Defined.

(** X: the identity is neutral on both sides: for a valid point [P] of the
    curve [(a, b, p)], [P + O] and [O + P] return [P] itself. *)
Theorem point_add_identity (a b p : Z) (P : Point.t) :
  valid_point a b p P = true ->
  let O := Point.mk None None a b p in
  Point.add P (Point.PointVal O) = Ok P /\
  Point.add O (Point.PointVal P) = Ok P.
Proof.
  intros HP O. destruct (valid_point_params a b p P HP) as (Ha & Hb & Hpp).
  destruct P as [[xv|] [yv|] a' b' p']; cbn in Ha, Hb, Hpp; subst a' b' p';
    unfold valid_point in HP; cbn [Point.x Point.y] in HP;
    rewrite ?andb_false_r in HP; try discriminate HP;
    unfold Point.add, Point.add_points; subst O;
    cbn [Point.x Point.y Point.a Point.b Point.p];
    rewrite !Z.eqb_refl; cbn [negb orb]; split; reflexivity.
Qed.

Lemma point_add_identity_witness :
  Point.add (Point.mk (Some 3) (Some 10) 1 1 23)
            (Point.PointVal (Point.mk None None 1 1 23))
    = Ok (Point.mk (Some 3) (Some 10) 1 1 23) /\
  Point.add (Point.mk None None 1 1 23)
            (Point.PointVal (Point.mk (Some 3) (Some 10) 1 1 23))
    = Ok (Point.mk (Some 3) (Some 10) 1 1 23).
Proof.
  apply (point_add_identity 1 1 23 (Point.mk (Some 3) (Some 10) 1 1 23)).
  vm_compute. reflexivity.
Defined.

Lemma neg_neg_mod (p yv : Z) : 0 <= yv < p -> (- ((- yv) mod p)) mod p = yv.
Proof.
  intros Hy. destruct (Z.eq_dec yv 0) as [->|Hne].
  - cbn [Z.opp]. rewrite !Zmod_0_l. reflexivity.
  - assert (E : (- yv) mod p = p - yv).
    { replace (- yv) with (p - yv + (-1) * p) by ring.
      rewrite Z.mod_add by lia. apply Z.mod_small. lia. }
    rewrite E. replace (- (p - yv)) with (yv + (-1) * p) by ring.
    rewrite Z.mod_add by lia. apply Z.mod_small. lia.
Qed.

Lemma point_neg_ec (a b p : Z) (P : Point.t) :
  Z.prime p -> 3 <= p -> valid_point a b p P = true ->
  exists N,
    Point.neg P = Ok N /\ valid_point a b p N = true /\
    to_ec p N = ec_neg (to_ec p P) /\ Point.neg N = Ok P.
Proof.
  intros Hp Hp3 HP.
  destruct (valid_point_cases a b p Hp3 P HP) as [->|(xv & yv & -> & Hx & Hy & Hon)].
  - exists (Point.mk None None a b p). repeat split. exact HP.
  - assert (Hon' : ec_on_curve (Zmod.of_Z p a) (Zmod.of_Z p b)
                     (Some (Zmod.of_Z p xv, Zmod.of_Z p ((- yv) mod p)))).
    { rewrite of_Z_opp_mod.
      apply (ec_neg_on_curve _ _ (Some (Zmod.of_Z p xv, Zmod.of_Z p yv))), Hon. }
    exists (Point.mk (Some xv) (Some ((- yv) mod p)) a b p).
    assert (Hyn : 0 <= (- yv) mod p < p) by (apply Z.mod_pos_bound; lia).
    split; [|split; [|split]].
    + unfold Point.neg. cbn [Point.x Point.y Point.a Point.b Point.p need bind].
      rewrite py_mod_ok by lia. cbn [bind]. apply init_affine; assumption.
    + apply valid_point_affine; assumption.
    + unfold to_ec. cbn [Point.x Point.y ec_neg]. rewrite of_Z_opp_mod. reflexivity.
    + unfold Point.neg. cbn [Point.x Point.y Point.a Point.b Point.p need bind].
      rewrite py_mod_ok by lia. cbn [bind]. rewrite neg_neg_mod by exact Hy.
      apply init_affine; assumption.
Qed.

(** X: negation gives the inverse: for a valid point [P] of a curve over an
    odd prime, [-P] is a valid point, [P + (-P)] is the identity, and
    [-(-P)] is [P] again. *)
Theorem point_neg_inverse (a b p : Z) (P : Point.t) :
  Z.prime p -> p <> 2 -> valid_point a b p P = true ->
  exists N,
    Point.neg P = Ok N /\ valid_point a b p N = true /\
    Point.add P (Point.PointVal N) = Ok (Point.mk None None a b p) /\
    Point.neg N = Ok P.
Proof.
  intros Hp Hp2 HP. pose proof (odd_prime_ge_3 p Hp Hp2) as Hp3.
  destruct (point_neg_ec a b p P Hp Hp3 HP) as (N & HN & HvN & HeN & HNN).
  exists N. split; [exact HN|]. split; [exact HvN|]. split; [|exact HNN].
  destruct (add_points_ec a b p Hp Hp3 P N HP HvN) as (R & HR & HvR & HeR).
  cbn [Point.add]. rewrite HR. f_equal.
  apply (to_ec_inj a b p Hp3); [exact HvR | apply valid_point_identity|].
  rewrite HeR, HeN.
  apply (ec_add_neg (Zmod.of_Z p a) (Zmod.of_Z p b)).
  apply valid_point_on_curve; assumption.
Qed.

Lemma point_neg_inverse_witness :
  exists N,
    Point.neg (Point.mk (Some 3) (Some 10) 1 1 23) = Ok N /\
    valid_point 1 1 23 N = true /\
    Point.add (Point.mk (Some 3) (Some 10) 1 1 23) (Point.PointVal N)
      = Ok (Point.mk None None 1 1 23) /\
    Point.neg N = Ok (Point.mk (Some 3) (Some 10) 1 1 23).
Proof.
  apply (point_neg_inverse 1 1 23).
  - apply primeb_sound. vm_compute. reflexivity.
  - discriminate.
  - vm_compute. reflexivity.
Defined.

(** ** Order search *)

(** X: the order returned by [find_order_brute_force] for a valid
    non-identity point is minimal for the repeated addition it performs:
    if it returns [n], then adding [G] to itself [n - 1] times gives the
    identity, and no smaller number of additions does. *)
Theorem find_order_minimal (start_time end_time a b p n e : Z) (G : Point.t) :
  Z.prime p -> p <> 2 -> valid_point a b p G = true ->
  Point.x G <> None ->
  find_order_brute_force start_time end_time G = Ok (Some n, e) ->
  let O := Point.mk None None a b p in
  exists k : nat,
    n = Z.of_nat k + 1 /\ (0 < k)%nat /\
    accumulate G k = Ok O /\
    forall j Q, (j < k)%nat -> accumulate G j = Ok Q ->
                Point.eq Q (Point.PointVal O) = false.
Proof.
  intros Hp Hp2 HG Hx Hres O.
  destruct (find_order_outcome start_time end_time a b p G Hp Hp2 HG)
    as [_ Hother].
  destruct (Hother Hx) as [[Hnone _]|(k & Hk & Hkmax & Hk' & Hreach & Hmin)].
  - rewrite Hnone in Hres. discriminate Hres.
  - rewrite Hk' in Hres. injection Hres as <- _.
    exists k. split; [reflexivity|]. split; [exact Hk|]. split; [exact Hreach|].
    intros j Q Hj HQ. destruct j as [|j].
    + cbn [accumulate] in HQ. injection HQ as <-.
      cbn [Point.eq]. apply not_true_is_false. intros E.
      apply point_eqb_eq in E. apply Hx. rewrite E. reflexivity.
    + apply (Hmin (S j) Q); [lia | exact HQ].
Qed.

Lemma find_order_minimal_witness :
  exists k : nat,
    28 = Z.of_nat k + 1 /\ (0 < k)%nat /\
    accumulate (Point.mk (Some 3) (Some 10) 1 1 23) k
      = Ok (Point.mk None None 1 1 23) /\
    forall j Q, (j < k)%nat ->
      accumulate (Point.mk (Some 3) (Some 10) 1 1 23) j = Ok Q ->
      Point.eq Q (Point.PointVal (Point.mk None None 1 1 23)) = false.
Proof.
  apply (find_order_minimal 0 5 1 1 23 28 5 (Point.mk (Some 3) (Some 10) 1 1 23)).
  - apply primeb_sound. vm_compute. reflexivity.
  - discriminate.
  - vm_compute. reflexivity.
  - discriminate.
  - vm_compute. reflexivity.
Defined.

(** X: a valid point with [y = 0] is its own inverse: [P + P] is the
    identity and [find_order_brute_force] returns order 2. *)
Theorem order_two_points (start_time end_time a b p xv : Z) :
  Z.prime p -> p <> 2 ->
  let P := Point.mk (Some xv) (Some 0) a b p in
  valid_point a b p P = true ->
  Point.add P (Point.PointVal P) = Ok (Point.mk None None a b p) /\
  find_order_brute_force start_time end_time P
    = Ok (Some 2, end_time - start_time).
Proof.
  intros Hp Hp2 P HP. pose proof (Z.prime_ge_2 p Hp) as Hge.
  assert (Hadd : Point.add_points P P = Ok (Point.mk None None a b p)).
  { unfold Point.add_points, P.
    cbn [Point.x Point.y Point.a Point.b Point.p].
    rewrite !Z.eqb_refl. cbn [negb orb need bind].
    rewrite py_mod_ok by lia. cbn [bind opt_eqb Z.opp].
    rewrite Z.mod_0_l by lia. reflexivity. }
  split; [exact Hadd|].
  unfold find_order_brute_force. cbn [Point.x Point.a Point.b Point.p P is_none].
  cbn [Point.init is_none andb bind].
  assert (Hfuel : exists f, Z.to_nat (2 * p + 2) = S f).
  { exists (Z.to_nat (2 * p + 1)). lia. }
  destruct Hfuel as [f ->]. cbn [order_loop].
  destruct (Z.leb_spec 1 (2 * p + 2)); [|lia].
  fold P. rewrite Hadd. cbn [bind Point.eq].
  rewrite (proj2 (point_eqb_eq _ _) eq_refl). reflexivity.
Qed.

Example point_6_0_on_curve_2_3_7 :
  valid_point 2 3 7 (Point.mk (Some 6) (Some 0) 2 3 7) = true.
Proof. vm_compute. reflexivity. Qed.

Lemma order_two_points_witness :
  Point.add (Point.mk (Some 6) (Some 0) 2 3 7)
            (Point.PointVal (Point.mk (Some 6) (Some 0) 2 3 7))
    = Ok (Point.mk None None 2 3 7) /\
  find_order_brute_force 0 5 (Point.mk (Some 6) (Some 0) 2 3 7)
    = Ok (Some 2, 5 - 0).
Proof.
  apply (order_two_points 0 5 2 3 7 6).
  - apply primeb_sound. vm_compute. reflexivity.
  - discriminate.
  - vm_compute. reflexivity.
Defined.

(** ** Associativity of the group law

    Associativity of the addition over the field [Zmod p].  The identities
    between the coordinates of the two sides are checked by [field] from the
    curve equations of the points; the case analysis follows the shapes of
    the four sums involved. *)

Section GroupLaw.
Context {p : Z} (Hp : Z.prime p) (Hp3 : 3 <= p).
Add Field zmod_field : (Zmod.field_theory p Hp).
Variables A B : Zmod p.
Implicit Types (x y : Zmod p) (P Q R : ec_point p).
#[local] Open Scope Zmod_scope.
#[local] Notation "u / v" := (Zmod.mdiv u v) : Zmod_scope.

Lemma mul_nonzero x y : x <> 0 -> y <> 0 -> x * y <> 0.
Proof.
  intros Hx Hy E. apply (Zmod.mul_0_iff_prime Hp) in E. tauto.
Qed.

Lemma sub_nonzero x y : x <> y -> x - y <> 0.
Proof. intros H E. apply H, Zmod.sub_eq_0, E. Qed.

Lemma sub_nonzero_sym x y : x <> y -> y - x <> 0.
Proof. intros H E. apply H. symmetry. apply Zmod.sub_eq_0, E. Qed.

Lemma opp_nonzero x : x <> 0 -> - x <> 0.
Proof. intros H E. apply H. rewrite <- (Zmod.opp_opp x), E. ring. Qed.

Lemma twice_nonzero y : y <> 0 -> y + y <> 0.
Proof. apply (double_nonzero Hp y Hp3). Qed.

Lemma self_opp_zero y : y = - y -> y = 0.
Proof.
  intros E. destruct (zmod_eq_dec y 0) as [E0|E0]; [exact E0|].
  exfalso. apply (twice_nonzero y E0). rewrite E at 2. ring.
Qed.

(** The three shapes of a sum of two affine points of the curve. *)
Lemma ec_add_cases x1 y1 x2 y2 :
  oncF A B x1 y1 -> oncF A B x2 y2 ->
  (x2 = x1 /\ y2 = - y1 /\
   ec_add A (Some (x1, y1)) (Some (x2, y2)) = None) \/
  (x2 = x1 /\ y2 = y1 /\ y1 <> 0 /\
   ec_add A (Some (x1, y1)) (Some (x2, y2)) = Some (tangent A x1 y1)) \/
  (x1 <> x2 /\
   ec_add A (Some (x1, y1)) (Some (x2, y2)) = Some (chord x1 y1 x2 y2)).
Proof.
  intros H1 H2. cbn [ec_add].
  destruct (Zmod.eqb_spec x1 x2) as [Ex|Ex]; cbn [andb].
  - subst x2. destruct (Zmod.eqb_spec y1 (- y2)) as [Ey|Ey].
    + left. repeat split. rewrite Ey. ring.
    + right. left.
      destruct (same_x_cases Hp A B x1 y1 y2 H1 H2) as [E|E]; [|contradiction].
      subst y2. rewrite Zmod.eqb_refl. repeat split.
      intros E0. apply Ey. rewrite E0. ring.
  - right. right. split; [exact Ex | reflexivity].
Qed.

Lemma chord_on_curve x1 y1 x2 y2 :
  oncF A B x1 y1 -> oncF A B x2 y2 -> x1 <> x2 ->
  oncF A B (fst (chord x1 y1 x2 y2)) (snd (chord x1 y1 x2 y2)).
Proof.
  intros H1 H2 D.
  pose proof (ec_add_on_curve Hp A B (Some (x1, y1)) (Some (x2, y2)) Hp3 H1 H2) as H.
  destruct (ec_add_cases x1 y1 x2 y2 H1 H2) as [(E & _)|[(E & _)|(_ & E)]];
    try (symmetry in E; contradiction).
  rewrite E in H. exact H.
Qed.

Lemma tangent_on_curve x1 y1 :
  oncF A B x1 y1 -> y1 <> 0 ->
  oncF A B (fst (tangent A x1 y1)) (snd (tangent A x1 y1)).
Proof.
  intros H1 D.
  pose proof (ec_add_on_curve Hp A B (Some (x1, y1)) (Some (x1, y1)) Hp3 H1 H1) as H.
  destruct (ec_add_cases x1 y1 x1 y1 H1 H1) as [(_ & E & _)|[(_ & _ & _ & E)|(E & _)]].
  - exfalso. apply D, self_opp_zero, E.
  - rewrite E in H. exact H.
  - contradiction.
Qed.

(** The line through two points meets the curve in a third one: the
    derivative of the cubic along the line, at the first point. *)
Lemma chord_derivative x1 y1 x2 y2 :
  oncF A B x1 y1 -> oncF A B x2 y2 -> x1 <> x2 ->
  x1 * x1 + x1 * x1 + x1 * x1 + A
    - (y2 - y1) / (x2 - x1) * (y1 + y1)
  = (x1 - x2) * (x1 - fst (chord x1 y1 x2 y2)).
Proof.
  unfold oncF, chord, line_sum. cbn [fst]. intros H1 H2 D.
  field [H1 H2]. apply sub_nonzero_sym, D.
Qed.

Lemma chord_derivative_2 x1 y1 x2 y2 :
  oncF A B x1 y1 -> oncF A B x2 y2 -> x1 <> x2 ->
  x2 * x2 + x2 * x2 + x2 * x2 + A
    - (y2 - y1) / (x2 - x1) * (y2 + y2)
  = (x2 - x1) * (x2 - fst (chord x1 y1 x2 y2)).
Proof.
  unfold oncF, chord, line_sum. cbn [fst]. intros H1 H2 D.
  field [H1 H2]. apply sub_nonzero_sym, D.
Qed.

Ltac unfold_lines :=
  unfold oncF, chord, tangent, line_sum in *; cbn [fst snd] in *.

(** [N <> 0] from [D <> 0]: [N] is [D] with its denominators cleared,
    [N = D * K]. *)
Ltac cleared D K :=
  match goal with
  | |- ?N <> 0 =>
      let E := fresh "E" in
      assert (E : N = D * K)
        by (unfold chord, tangent, line_sum; cbn [fst snd]; field;
            repeat split; assumption);
      rewrite E; repeat apply mul_nonzero; try assumption
  end.

(** [(P + P) + R = P + (P + R)], the outer sums along chords. *)
Lemma assoc_tangent_chord (x1 y1 x3 y3 : Zmod p) :
  oncF A B x1 y1 -> oncF A B x3 y3 ->
  y1 <> 0 -> x1 <> x3 ->
  fst (tangent A x1 y1) <> x3 ->
  x1 <> fst (chord x1 y1 x3 y3) ->
  chord (fst (tangent A x1 y1)) (snd (tangent A x1 y1)) x3 y3
  = chord x1 y1 (fst (chord x1 y1 x3 y3)) (snd (chord x1 y1 x3 y3)).
Proof.
  intros H1 H3 D1 D2 D3 D4. unfold_lines.
  apply twice_nonzero in D1. apply sub_nonzero_sym in D2, D3, D4.
  f_equal; field [H1 H3]; (repeat split; try assumption);
    first [ cleared ((y3 - y1) / (x3 - x1) * ((y3 - y1) / (x3 - x1)) - x1 - x3 - x1)
                    ((x3 - x1) * (x3 - x1))
          | cleared (x3 - ((x1 * x1 + x1 * x1 + x1 * x1 + A) / (y1 + y1) *
                           ((x1 * x1 + x1 * x1 + x1 * x1 + A) / (y1 + y1)) - x1 - x1))
                    ((y1 + y1) * (y1 + y1)) ].
Qed.

(** [(P + Q) + R = P + (Q + R)], the four sums along chords. *)
Lemma assoc_chord_chord (x1 y1 x2 y2 x3 y3 : Zmod p) :
  oncF A B x1 y1 -> oncF A B x2 y2 -> oncF A B x3 y3 ->
  x1 <> x2 -> x2 <> x3 ->
  fst (chord x1 y1 x2 y2) <> x3 ->
  x1 <> fst (chord x2 y2 x3 y3) ->
  chord (fst (chord x1 y1 x2 y2)) (snd (chord x1 y1 x2 y2)) x3 y3
  = chord x1 y1 (fst (chord x2 y2 x3 y3)) (snd (chord x2 y2 x3 y3)).
Proof.
  intros H1 H2 H3 D1 D2 D3 D4. unfold_lines.
  apply sub_nonzero_sym in D1, D2, D3, D4.
  f_equal; field [H1 H2 H3]; (repeat split; try assumption);
    first [ cleared ((y3 - y2) / (x3 - x2) * ((y3 - y2) / (x3 - x2)) - x2 - x3 - x1)
                    ((x3 - x2) * (x3 - x2))
          | cleared (x3 - ((y2 - y1) / (x2 - x1) * ((y2 - y1) / (x2 - x1)) - x1 - x2))
                    ((x2 - x1) * (x2 - x1)) ].
Qed.

(** The sum of [Q] and the mirror image of [P + Q] is the mirror image of
    [P]: the three points lie on one line. *)
Lemma chord_third_point (x1 y1 x2 y2 : Zmod p) :
  oncF A B x1 y1 -> oncF A B x2 y2 ->
  x1 <> x2 -> x2 <> fst (chord x1 y1 x2 y2) ->
  chord x2 y2 (fst (chord x1 y1 x2 y2)) (- snd (chord x1 y1 x2 y2))
  = (x1, - y1).
Proof.
  intros H1 H2 D1 D2. unfold_lines.
  apply sub_nonzero_sym in D1, D2.
  f_equal; field [H1 H2]; (repeat split; try assumption);
    cleared ((y2 - y1) / (x2 - x1) * ((y2 - y1) / (x2 - x1)) - x1 - x2 - x2)
            ((x2 - x1) * (x2 - x1)).
Qed.

(** The same for a doubled point: [P + (- 2 P) = - P]. *)
Lemma tangent_third_point (x1 y1 : Zmod p) :
  oncF A B x1 y1 -> y1 <> 0 -> x1 <> fst (tangent A x1 y1) ->
  chord x1 y1 (fst (tangent A x1 y1)) (- snd (tangent A x1 y1))
  = (x1, - y1).
Proof.
  intros H1 D1 D2. unfold_lines.
  apply twice_nonzero in D1. apply sub_nonzero_sym in D2.
  f_equal; field [H1]; (repeat split; try assumption);
    cleared ((x1 * x1 + x1 * x1 + x1 * x1 + A) / (y1 + y1) *
             ((x1 * x1 + x1 * x1 + x1 * x1 + A) / (y1 + y1)) - x1 - x1 - x1)
            ((y1 + y1) * (y1 + y1)).
Qed.

Lemma chord_neg (x1 y1 x2 y2 : Zmod p) :
  x1 <> x2 ->
  chord x1 (- y1) x2 (- y2)
  = (fst (chord x1 y1 x2 y2), - snd (chord x1 y1 x2 y2)).
Proof.
  intros D1. unfold_lines. apply sub_nonzero_sym in D1.
  f_equal; field; assumption.
Qed.

Lemma tangent_neg (x1 y1 : Zmod p) :
  y1 <> 0 ->
  tangent A x1 (- y1) = (fst (tangent A x1 y1), - snd (tangent A x1 y1)).
Proof.
  intros D1. unfold_lines. apply twice_nonzero in D1.
  f_equal; field; (repeat split; try assumption).
  all: intros E; apply D1; rewrite <- (Zmod.opp_opp (y1 + y1));
    replace (- (y1 + y1)) with (- y1 + - y1) by ring; rewrite E; ring.
Qed.

(** Doubling after adding a point of order two. *)
Lemma double_after_order_two (x1 y1 x2 : Zmod p) :
  oncF A B x1 y1 -> oncF A B x2 0 ->
  x1 <> x2 -> y1 <> 0 -> snd (chord x1 y1 x2 0) <> 0 ->
  tangent A (fst (chord x1 y1 x2 0)) (snd (chord x1 y1 x2 0))
  = tangent A x1 y1.
Proof.
  intros H1 H2 D1 D2 D3.
  apply sub_nonzero_sym in D1. apply twice_nonzero in D2, D3.
  assert (H2' : x2 * x2 * x2 = - (A * x2) - B).
  { unfold oncF in H2. transitivity (x2 * x2 * x2 + A * x2 + B - (A * x2) - B); [ring|].
    rewrite <- H2. ring. }
  unfold oncF in H1.
  unfold tangent, chord, line_sum; cbn [fst snd].
  f_equal; field [H1 H2']; (repeat split; try assumption).
  all: cleared (snd (chord x1 y1 x2 0) + snd (chord x1 y1 x2 0))
            ((x2 - x1) * ((x2 - x1) * (x2 - x1))).
Qed.

(** A chord through [P] that meets the curve twice at [Q] is the tangent
    at [Q]. *)
Lemma chord_meets_twice (x1 y1 x2 y2 : Zmod p) :
  oncF A B x1 y1 -> oncF A B x2 y2 ->
  x1 <> x2 -> y2 <> 0 ->
  chord x1 y1 x2 y2 = (x2, - y2) ->
  tangent A x2 y2 = (x1, - y1).
Proof.
  intros H1 H2 D1 D2 E.
  pose proof (chord_derivative_2 x1 y1 x2 y2 H1 H2 D1) as Hd.
  rewrite E in Hd. cbn [fst] in Hd.
  replace ((x2 - x1) * (x2 - x2)) with (0 : Zmod p) in Hd by ring.
  apply twice_nonzero in D2. apply sub_nonzero_sym in D1.
  assert (Hl : (x2 * x2 + x2 * x2 + x2 * x2 + A) / (y2 + y2)
               = (y2 - y1) / (x2 - x1)).
  { apply Zmod.sub_eq_0 in Hd. rewrite Hd. field; repeat split; assumption. }
  unfold tangent. rewrite Hl.
  pose proof (f_equal fst E) as Ex. unfold chord, line_sum in Ex. cbn [fst] in Ex.
  assert (Ex' : (y2 - y1) / (x2 - x1) * ((y2 - y1) / (x2 - x1)) - x2 - x2 = x1).
  { transitivity ((y2 - y1) / (x2 - x1) * ((y2 - y1) / (x2 - x1)) - x1 - x2 + x1 - x2);
      [ring|]. rewrite Ex. ring. }
  unfold line_sum. rewrite Ex'. f_equal. field. assumption.
Qed.

(** [(S - Q) + (S + Q) = 2 S] *)
Lemma double_as_sum (x2 y2 xs ys : Zmod p) :
  oncF A B x2 y2 -> oncF A B xs ys ->
  xs <> x2 -> ys <> 0 ->
  fst (chord xs ys x2 (- y2)) <> fst (chord x2 y2 xs ys) ->
  tangent A xs ys
  = chord (fst (chord xs ys x2 (- y2))) (snd (chord xs ys x2 (- y2)))
          (fst (chord x2 y2 xs ys)) (snd (chord x2 y2 xs ys)).
Proof.
  intros H2 HS D1 D2 D3.
  pose proof (sub_nonzero _ _ D1) as D1'.
  apply sub_nonzero_sym in D1, D3. apply twice_nonzero in D2.
  unfold oncF in H2, HS.
  unfold tangent, chord, line_sum; cbn [fst snd].
  f_equal; field [H2 HS]; (repeat split; try assumption);
    cleared (fst (chord x2 y2 xs ys) - fst (chord xs ys x2 (- y2)))
            ((xs - x2) * (xs - x2) * ((x2 - xs) * (x2 - xs))).
Qed.

Lemma chord_comm (x1 y1 x2 y2 : Zmod p) :
  x1 <> x2 -> chord x1 y1 x2 y2 = chord x2 y2 x1 y1.
Proof.
  intros D. pose proof (sub_nonzero _ _ D) as D1.
  pose proof (sub_nonzero_sym _ _ D) as D2.
  unfold chord, line_sum. f_equal; field; repeat split; assumption.
Qed.

#[local] Abbreviation oc := (ec_on_curve A B).
#[local] Notation "P +! Q" := (ec_add A P Q) (at level 50, left associativity).
#[local] Notation "-! P" := (ec_neg P) (at level 35, right associativity).

Lemma some_inj {T : Type} (u v : T) : Some u = Some v -> u = v.
Proof.
  intros E. exact (f_equal (fun o => match o with Some w => w | None => u end) E).
Qed.

Lemma ec_eq_dec P Q : {P = Q} + {P <> Q}.
Proof.
  destruct P as [[x1 y1]|], Q as [[x2 y2]|];
    try (right; discriminate); [|left; reflexivity].
  destruct (zmod_eq_dec x1 x2) as [Ex|Nx].
  - destruct (zmod_eq_dec y1 y2) as [Ey|Ny].
    + left. rewrite Ex, Ey. reflexivity.
    + right. intros E. apply Ny. exact (f_equal snd (some_inj _ _ E)).
  - right. intros E. apply Nx. exact (f_equal fst (some_inj _ _ E)).
Qed.

Lemma ec_add_None_l P : None +! P = P.
Proof. reflexivity. Qed.

Lemma ec_add_None_r P : P +! None = P.
Proof. destruct P as [[x1 y1]|]; reflexivity. Qed.

Lemma ec_neg_neg P : -! -! P = P.
Proof.
  destruct P as [[x1 y1]|]; cbn [ec_neg]; [|reflexivity].
  rewrite Zmod.opp_opp. reflexivity.
Qed.

Lemma ec_neg_Some (s : Zmod p * Zmod p) : -! Some s = Some (fst s, - snd s).
Proof. destruct s; reflexivity. Qed.

Lemma oncF_neg x y : oncF A B x y -> oncF A B x (- y).
Proof. exact (ec_neg_on_curve A B (Some (x, y))). Qed.

Lemma ec_add_opp x1 y1 : Some (x1, y1) +! Some (x1, - y1) = None.
Proof.
  cbn [ec_add]. rewrite Zmod.opp_opp, !Zmod.eqb_refl. reflexivity.
Qed.

Lemma ec_add_neg_l P : -! P +! P = None.
Proof.
  destruct P as [[x1 y1]|]; cbn [ec_neg]; [|reflexivity].
  rewrite <- (Zmod.opp_opp y1) at 2. apply ec_add_opp.
Qed.

Lemma ec_add_tangent x1 y1 :
  oncF A B x1 y1 -> y1 <> 0 ->
  Some (x1, y1) +! Some (x1, y1) = Some (tangent A x1 y1).
Proof.
  intros H1 D.
  destruct (ec_add_cases x1 y1 x1 y1 H1 H1) as [(_ & E & _)|[(_ & _ & _ & E)|(E & _)]].
  - exfalso. apply D, self_opp_zero, E.
  - exact E.
  - contradiction.
Qed.

Lemma ec_add_chord x1 y1 x2 y2 :
  x1 <> x2 -> Some (x1, y1) +! Some (x2, y2) = Some (chord x1 y1 x2 y2).
Proof.
  intros D. cbn [ec_add].
  destruct (Zmod.eqb_spec x1 x2) as [E|_]; [contradiction | reflexivity].
Qed.

(** Two affine points that are not mirror images of each other are added
    along the tangent or along the chord. *)
Lemma add_shape x1 y1 x2 y2 :
  oncF A B x1 y1 -> oncF A B x2 y2 ->
  Some (x2, y2) <> -! Some (x1, y1) ->
  (x2 = x1 /\ y2 = y1 /\ y1 <> 0 /\
   Some (x1, y1) +! Some (x2, y2) = Some (tangent A x1 y1)) \/
  (x1 <> x2 /\
   Some (x1, y1) +! Some (x2, y2) = Some (chord x1 y1 x2 y2)).
Proof.
  intros H1 H2 N.
  destruct (ec_add_cases x1 y1 x2 y2 H1 H2) as [(E1 & E2 & _)|[H|H]].
  - exfalso. apply N. rewrite E1, E2. reflexivity.
  - left. exact H.
  - right. exact H.
Qed.

Lemma ec_add_oc P Q : oc P -> oc Q -> oc (P +! Q).
Proof. apply (ec_add_on_curve Hp A B P Q Hp3). Qed.

Lemma ec_neg_oc P : oc P -> oc (-! P).
Proof. apply ec_neg_on_curve. Qed.

Lemma ec_add_None_inv P Q : oc P -> oc Q -> P +! Q = None -> Q = -! P.
Proof.
  destruct P as [[x1 y1]|], Q as [[x2 y2]|]; intros H1 H2 E.
  - destruct (ec_add_cases x1 y1 x2 y2 H1 H2)
      as [(E1 & E2 & _)|[(_ & _ & _ & E')|(_ & E')]].
    + rewrite E1, E2. reflexivity.
    + rewrite E' in E. discriminate.
    + rewrite E' in E. discriminate.
  - rewrite ec_add_None_r in E. discriminate.
  - cbn [ec_add] in E. discriminate.
  - reflexivity.
Qed.

Lemma ec_neg_add P Q : oc P -> oc Q -> -! (P +! Q) = -! P +! -! Q.
Proof.
  destruct P as [[x1 y1]|], Q as [[x2 y2]|]; intros H1 H2.
  - destruct (ec_add_cases x1 y1 x2 y2 H1 H2)
      as [(E1 & E2 & E)|[(E1 & E2 & D & E)|(D & E)]]; rewrite E.
    + rewrite E1, E2. cbn [ec_neg]. symmetry. apply ec_add_opp.
    + rewrite E1, E2. cbn [ec_neg].
      rewrite ec_add_tangent by (try apply oncF_neg; try apply opp_nonzero; assumption).
      rewrite tangent_neg by assumption. apply ec_neg_Some.
    + cbn [ec_neg]. rewrite ec_add_chord by assumption.
      rewrite chord_neg by assumption. apply ec_neg_Some.
  - rewrite !ec_add_None_r. reflexivity.
  - reflexivity.
  - reflexivity.
Qed.

Lemma neg_swap X Y Z :
  oc X -> oc Y -> X +! -! Y = -! Z -> Y +! -! X = Z.
Proof.
  intros HX HY E.
  rewrite <- (ec_neg_neg Y) at 1.
  rewrite <- ec_neg_add by (try apply ec_neg_oc; assumption).
  rewrite (ec_add_comm Hp A B (-! Y) X) by (try apply ec_neg_oc; assumption).
  rewrite E. apply ec_neg_neg.
Qed.

Section Smooth.
Hypothesis Hs : smooth A B.

(** Only the point at infinity is neutral. *)
Lemma ec_add_fixed P Q : oc P -> oc Q -> P +! Q = P -> Q = None.
Proof.
  destruct P as [[x1 y1]|], Q as [[x2 y2]|]; intros H1 H2 E; try reflexivity.
  2: { cbn [ec_add] in E. discriminate. }
  exfalso.
  destruct (ec_add_cases x1 y1 x2 y2 H1 H2)
    as [(E1 & E2 & E')|[(E1 & E2 & D & E')|(D & E')]]; rewrite E' in E.
  - discriminate.
  - apply some_inj in E.
    pose proof (f_equal fst E) as Ex. pose proof (f_equal snd E) as Ey.
    unfold tangent, line_sum in Ex, Ey. cbn [fst snd] in Ex, Ey.
    rewrite Ex in Ey. apply D, self_opp_zero.
    rewrite <- Ey at 1. ring.
  - apply some_inj in E.
    pose proof (f_equal fst E) as Ex. pose proof (f_equal snd E) as Ey.
    cbn [fst snd] in Ex, Ey.
    pose proof (chord_derivative x1 y1 x2 y2 H1 H2 D) as Hd.
    rewrite Ex in Hd.
    unfold chord, line_sum in Ex, Ey. cbn [fst snd] in Ex, Ey.
    rewrite Ex in Ey.
    assert (E0 : y1 = 0).
    { apply self_opp_zero. rewrite <- Ey at 1. ring. }
    rewrite E0 in Hd. unfold oncF in H1. rewrite E0 in H1.
    apply (Hs x1).
    + rewrite <- H1. ring.
    + match type of Hd with ?L = _ => transitivity L; [ring | rewrite Hd; ring] end.
Qed.

Lemma sub_tangent x1 y1 :
  oncF A B x1 y1 -> y1 <> 0 ->
  Some (tangent A x1 y1) +! Some (x1, - y1) = Some (x1, y1).
Proof.
  intros H1 D. pose proof (tangent_on_curve x1 y1 H1 D) as HS.
  pose proof (tangent_third_point x1 y1 H1 D) as K.
  pose proof (tangent_neg x1 y1 D) as Hn.
  pose proof (ec_add_tangent x1 y1 H1 D) as Ht.
  destruct (tangent A x1 y1) as [xd yd]. cbn [fst snd] in HS, K, Hn.
  destruct (zmod_eq_dec xd x1) as [Ex|Nx].
  - rewrite Ex in *.
    destruct (same_x_cases Hp A B x1 yd y1 HS H1) as [Ey|Ey]; rewrite Ey in *.
    + exfalso.
      assert (E : Some (x1, y1) = None :> ec_point p); [|discriminate E].
      apply (ec_add_fixed (Some (x1, y1)) (Some (x1, y1)) H1 H1). exact Ht.
    + rewrite ec_add_tangent by (try apply oncF_neg; try apply opp_nonzero; assumption).
      rewrite Hn, Zmod.opp_opp. reflexivity.
  - apply (neg_swap (Some (x1, y1)) (Some (xd, yd)) (Some (x1, y1)) H1 HS).
    cbn [ec_neg]. rewrite ec_add_chord by (intros E; apply Nx; symmetry; exact E).
    f_equal. apply K. intros E; apply Nx; symmetry; exact E.
Qed.

Lemma sub_chord x1 y1 x2 y2 :
  oncF A B x1 y1 -> oncF A B x2 y2 -> x1 <> x2 ->
  Some (chord x1 y1 x2 y2) +! Some (x2, - y2) = Some (x1, y1).
Proof.
  intros H1 H2 D. pose proof (chord_on_curve x1 y1 x2 y2 H1 H2 D) as HS.
  pose proof (chord_third_point x1 y1 x2 y2 H1 H2 D) as K.
  pose proof (fun D2 => chord_meets_twice x1 y1 x2 y2 H1 H2 D D2) as Km.
  pose proof (ec_add_chord x1 y1 x2 y2 D) as Hc.
  destruct (chord x1 y1 x2 y2) as [xs ys]. cbn [fst snd] in HS, K.
  destruct (zmod_eq_dec xs x2) as [Ex|Nx].
  - rewrite Ex in *.
    assert (NQ : ys <> y2).
    { intros Ey. rewrite Ey in *.
      assert (E : Some (x1, y1) = None :> ec_point p); [|discriminate E].
      apply (ec_add_fixed (Some (x2, y2)) (Some (x1, y1)) H2 H1).
      rewrite (ec_add_comm Hp A B) by assumption. exact Hc. }
    destruct (same_x_cases Hp A B x2 ys y2 HS H2) as [Ey|Ey]; [contradiction|].
    rewrite Ey in *.
    assert (D2 : y2 <> 0).
    { intros E0. apply NQ. rewrite E0. ring. }
    rewrite ec_add_tangent by (try apply oncF_neg; try apply opp_nonzero; assumption).
    rewrite tangent_neg by assumption.
    rewrite (Km D2 eq_refl). cbn [fst snd]. rewrite Zmod.opp_opp. reflexivity.
  - apply (neg_swap (Some (x2, y2)) (Some (xs, ys)) (Some (x1, y1)) H2 HS).
    cbn [ec_neg]. rewrite ec_add_chord by (intros E; apply Nx; symmetry; exact E).
    f_equal. apply K. intros E; apply Nx; symmetry; exact E.
Qed.

(** Subtracting what was added. *)
Lemma ec_add_sub P Q : oc P -> oc Q -> (P +! Q) +! -! Q = P.
Proof.
  destruct P as [[x1 y1]|], Q as [[x2 y2]|]; intros H1 H2.
  2: { rewrite !ec_add_None_r. reflexivity. }
  2: { rewrite ec_add_None_l. apply (ec_add_neg A B). exact H2. }
  2: { reflexivity. }
  destruct (ec_add_cases x1 y1 x2 y2 H1 H2)
    as [(E1 & E2 & E)|[(E1 & E2 & D & E)|(D & E)]]; rewrite E.
  - rewrite E1, E2. rewrite ec_add_None_l. cbn [ec_neg].
    rewrite Zmod.opp_opp. reflexivity.
  - rewrite E1, E2. apply sub_tangent; assumption.
  - apply sub_chord; assumption.
Qed.

Lemma ec_add_cancel_l P Q R :
  oc P -> oc Q -> oc R -> P +! Q = P +! R -> Q = R.
Proof.
  intros HP HQ HR E.
  rewrite <- (ec_add_sub Q P HQ HP), <- (ec_add_sub R P HR HP).
  rewrite (ec_add_comm Hp A B Q P), (ec_add_comm Hp A B R P) by assumption.
  rewrite E. reflexivity.
Qed.

(** Three points of a line: if [P + Q = - R] then [Q + R = - P]. *)
Lemma ec_add_rotate P Q R :
  oc P -> oc Q -> oc R -> P +! Q = -! R -> Q +! R = -! P.
Proof.
  intros HP HQ HR E.
  assert (ER : R = -! P +! -! Q).
  { rewrite <- ec_neg_add by assumption. rewrite E. symmetry. apply ec_neg_neg. }
  rewrite (ec_add_comm Hp A B Q R) by assumption.
  rewrite ER. rewrite <- (ec_neg_neg Q) at 2.
  apply ec_add_sub; apply ec_neg_oc; assumption.
Qed.

Lemma neq_neg_swap P Q : P <> -! Q -> Q <> -! P.
Proof. intros N E. apply N. rewrite E. symmetry. apply ec_neg_neg. Qed.

(** Associativity when no sum is the point at infinity, for the shapes
    that are not covered by exchanging [P] and [R]. *)
Lemma assoc_half P Q R :
  oc P -> oc Q -> oc R -> P <> None -> Q <> None -> R <> None ->
  Q <> -! P -> R <> -! Q -> P +! Q <> -! R -> Q +! R <> -! P ->
  P = Q \/ (Q <> R /\ (P +! Q = R \/ Q +! R <> P)) ->
  (P +! Q) +! R = P +! (Q +! R).
Proof.
  intros HP HQ HR NP NQ NR N1 N2 N3 N4 Hc.
  destruct P as [[x1 y1]|]; [|contradiction].
  destruct Q as [[x2 y2]|]; [|contradiction].
  destruct R as [[x3 y3]|]; [|contradiction].
  clear NP NQ NR.
  destruct (add_shape x1 y1 x2 y2 HP HQ N1) as [(Ex & Ey & D1 & ES)|(D1 & ES)].
  - (* P = Q *)
    subst x2 y2. clear Hc.
    destruct (add_shape x1 y1 x3 y3 HP HR N2) as [(Ex & Ey & _ & ET)|(D2 & ET)].
    { subst x3 y3. apply (ec_add_comm Hp A B); [apply ec_add_oc|]; assumption. }
    assert (NT : Some (x1, y1) +! Some (x3, y3) <> Some (x1, y1)).
    { intros E. pose proof (ec_add_fixed _ _ HP HR E). discriminate. }
    pose proof (tangent_on_curve x1 y1 HP D1) as HS.
    pose proof (chord_on_curve x1 y1 x3 y3 HP HR D2) as HT.
    pose proof (assoc_tangent_chord x1 y1 x3 y3 HP HR D1 D2) as Ltc.
    pose proof (sub_tangent x1 y1 HP D1) as Hsub.
    rewrite ES in N3 |- *.
    destruct (tangent A x1 y1) as [xs ys]. cbn [fst snd] in HS, Ltc.
    destruct (add_shape xs ys x3 y3 HS HR (neq_neg_swap _ _ N3))
      as [(Ex & Ey & D3 & ESR)|(D3 & ESR)]; rewrite ESR.
    + subst x3 y3. rewrite ET in N4, NT |- *.
      destruct (chord x1 y1 xs ys) as [xt yt] eqn:Et. cbn [fst snd] in HT.
      destruct (add_shape x1 y1 xt yt HP HT N4)
        as [(Ex & Ey & _ & EPT)|(D4 & EPT)].
      * exfalso. apply NT. rewrite Ex, Ey. reflexivity.
      * rewrite EPT. f_equal.
        assert (D2' : xs <> x1) by (intros E; apply D2; symmetry; exact E).
        rewrite ec_add_chord in Hsub by exact D2'. apply some_inj in Hsub.
        pose proof (double_as_sum x1 y1 xs ys HP HS D2' D3) as Lds.
        rewrite Hsub, Et in Lds. apply Lds. exact D4.
    + rewrite ET in N4, NT |- *.
      destruct (chord x1 y1 x3 y3) as [xt yt]. cbn [fst snd] in HT, Ltc.
      destruct (add_shape x1 y1 xt yt HP HT N4)
        as [(Ex & Ey & _ & EPT)|(D4 & EPT)].
      * exfalso. apply NT. rewrite Ex, Ey. reflexivity.
      * rewrite EPT. f_equal. apply Ltc; assumption.
  - (* P <> Q *)
    destruct Hc as [E|(NQR & Hc)].
    { exfalso. apply D1. exact (f_equal fst (some_inj _ _ E)). }
    destruct (add_shape x2 y2 x3 y3 HQ HR N2) as [(Ex & Ey & _ & ET)|(D2 & ET)].
    { exfalso. apply NQR. rewrite Ex, Ey. reflexivity. }
    pose proof (chord_on_curve x1 y1 x2 y2 HP HQ D1) as HS.
    pose proof (chord_on_curve x2 y2 x3 y3 HQ HR D2) as HT.
    pose proof (assoc_chord_chord x1 y1 x2 y2 x3 y3 HP HQ HR D1 D2) as Lcc.
    pose proof (ec_add_sub _ _ HP HQ) as Hsub.
    rewrite ES in N3, Hc, Hsub |- *.
    destruct (chord x1 y1 x2 y2) as [xs ys] eqn:Es. cbn [fst snd] in HS, Lcc.
    destruct (add_shape xs ys x3 y3 HS HR (neq_neg_swap _ _ N3))
      as [(Ex & Ey & D3 & ESR)|(D3 & ESR)]; rewrite ESR.
    + subst x3 y3. rewrite ET in N4, Hc |- *.
      destruct (chord x2 y2 xs ys) as [xt yt] eqn:Et. cbn [fst snd] in HT.
      destruct (add_shape x1 y1 xt yt HP HT N4)
        as [(Ex & Ey & D4 & EPT)|(D4 & EPT)]; rewrite EPT.
      * subst xt yt.
        assert (E2 : -! Some (x2, y2) = Some (x2, y2)).
        { apply (ec_add_cancel_l (Some (xs, ys))); try assumption.
          - apply ec_neg_oc, HQ.
          - rewrite Hsub. rewrite (ec_add_comm Hp A B) by assumption.
            symmetry. exact ET. }
        assert (E0 : y2 = 0).
        { apply self_opp_zero. symmetry.
          exact (f_equal snd (some_inj _ _ E2)). }
        subst y2. f_equal.
        pose proof (double_after_order_two x1 y1 x2 HP HQ D1 D4) as Ldo.
        rewrite Es in Ldo. apply Ldo. exact D3.
      * f_equal.
        assert (D2' : xs <> x2) by (intros E; apply D2; symmetry; exact E).
        cbn [ec_neg] in Hsub.
        rewrite ec_add_chord in Hsub by exact D2'. apply some_inj in Hsub.
        pose proof (double_as_sum x2 y2 xs ys HQ HS D2' D3) as Lds.
        rewrite Hsub, Et in Lds. apply Lds. exact D4.
    + rewrite ET in N4, Hc |- *.
      destruct (chord x2 y2 x3 y3) as [xt yt]. cbn [fst snd] in HT, Lcc.
      destruct (add_shape x1 y1 xt yt HP HT N4)
        as [(Ex & Ey & D4 & EPT)|(D4 & EPT)]; rewrite EPT.
      * exfalso. subst xt yt. destruct Hc as [E|E].
        -- apply D3. exact (f_equal fst (some_inj _ _ E)).
        -- apply E. reflexivity.
      * f_equal. apply Lcc; assumption.
Qed.

(** The points of a non-singular curve form a group: addition is
    associative. *)
Lemma ec_add_assoc P Q R :
  oc P -> oc Q -> oc R -> (P +! Q) +! R = P +! (Q +! R).
Proof.
  intros HP HQ HR.
  pose proof (ec_add_oc P Q HP HQ) as HPQ.
  pose proof (ec_add_oc Q R HQ HR) as HQR.
  pose proof (ec_neg_oc P HP) as HnP.
  destruct (ec_eq_dec P None) as [->|NP]. { reflexivity. }
  destruct (ec_eq_dec Q None) as [->|NQ].
  { rewrite ec_add_None_r, ec_add_None_l. reflexivity. }
  destruct (ec_eq_dec R None) as [->|NR].
  { rewrite !ec_add_None_r. reflexivity. }
  destruct (ec_eq_dec Q (-! P)) as [->|N1].
  { rewrite (ec_add_neg A B P HP), ec_add_None_l.
    rewrite (ec_add_comm Hp A B (-! P) R) by assumption.
    rewrite (ec_add_comm Hp A B P (R +! -! P)) by (try apply ec_add_oc; assumption).
    symmetry. rewrite <- (ec_neg_neg P) at 2. apply ec_add_sub; assumption. }
  destruct (ec_eq_dec R (-! Q)) as [->|N2].
  { rewrite (ec_add_neg A B Q HQ), ec_add_None_r. apply ec_add_sub; assumption. }
  destruct (ec_eq_dec (P +! Q) (-! R)) as [E|N3].
  { rewrite (ec_add_rotate P Q R HP HQ HR E). rewrite E, ec_add_neg_l.
    symmetry. apply (ec_add_neg A B P HP). }
  destruct (ec_eq_dec (Q +! R) (-! P)) as [E|N4].
  { rewrite E, (ec_add_neg A B P HP).
    rewrite (ec_add_rotate R P Q HR HP HQ (ec_add_rotate Q R P HQ HR HP E)).
    apply ec_add_neg_l. }
  assert (mirror : (R +! Q) +! P = R +! (Q +! P) ->
                   (P +! Q) +! R = P +! (Q +! R)).
  { intros M.
    rewrite (ec_add_comm Hp A B (P +! Q) R) by assumption.
    rewrite (ec_add_comm Hp A B P (Q +! R)) by assumption.
    rewrite (ec_add_comm Hp A B P Q), (ec_add_comm Hp A B Q R) by assumption.
    symmetry. exact M. }
  assert (N1' : Q <> -! R) by (apply neq_neg_swap, N2).
  assert (N2' : P <> -! Q) by (apply neq_neg_swap, N1).
  assert (N3' : R +! Q <> -! P).
  { rewrite (ec_add_comm Hp A B R Q) by assumption. exact N4. }
  assert (N4' : Q +! P <> -! R).
  { rewrite (ec_add_comm Hp A B Q P) by assumption. exact N3. }
  destruct (ec_eq_dec P Q) as [EPQ|NPQ].
  { apply assoc_half; try assumption. left. exact EPQ. }
  destruct (ec_eq_dec Q R) as [EQR|NQR].
  { apply mirror. apply assoc_half; try assumption. left. symmetry. exact EQR. }
  destruct (ec_eq_dec (P +! Q) R) as [ES|NS].
  { apply assoc_half; try assumption. right. split; [exact NQR|]. left. exact ES. }
  destruct (ec_eq_dec (Q +! R) P) as [ET|NT].
  { apply mirror. apply assoc_half; try assumption. right. split.
    - intros E. apply NPQ. symmetry. exact E.
    - left. rewrite (ec_add_comm Hp A B R Q) by assumption. exact ET. }
  apply assoc_half; try assumption. right. split; [exact NQR|]. right. exact NT.
Qed.

Lemma ec_mul_oc k P : oc P -> oc (ec_mul A k P).
Proof.
  intros HP. induction k as [|k IH]; cbn [ec_mul]; [exact I|].
  apply ec_add_oc; assumption.
Qed.

Lemma ec_mul_add m n P :
  oc P -> ec_mul A (m + n) P = ec_mul A m P +! ec_mul A n P.
Proof.
  intros HP. induction n as [|n IH].
  - rewrite Nat.add_0_r. cbn [ec_mul]. symmetry. apply ec_add_None_r.
  - rewrite Nat.add_succ_r. cbn [ec_mul]. rewrite IH.
    apply ec_add_assoc; try apply ec_mul_oc; assumption.
Qed.

Lemma ec_mul_double n P :
  oc P -> ec_mul A n (P +! P) = ec_mul A (n + n) P.
Proof.
  intros HP. induction n as [|n IH]; [reflexivity|].
  rewrite Nat.add_succ_r. cbn [ec_mul Nat.add]. rewrite IH.
  symmetry. apply ec_add_assoc; try apply ec_mul_oc; assumption.
Qed.

End Smooth.

End GroupLaw.

Lemma ec_mul_None {p : Z} (A : Zmod p) k : ec_mul A k None = None.
Proof. induction k as [|k IH]; cbn [ec_mul]; [reflexivity|]. rewrite IH. reflexivity. Qed.

Section ScalarMultiplication.
Variables a b p : Z.
Hypothesis Hp : Z.prime p.
Hypothesis Hp3 : 3 <= p.
Hypothesis Hv : discriminant a b p <> 0.
Add Ring zmod_scalar_ring : (Zmod.ring_theory p).

Abbreviation F := (Zmod.of_Z p).

(** A curve whose [discriminant] does not vanish has no singular point. *)
Lemma discriminant_smooth : smooth (F a) (F b).
Proof.
  intros x Hf Hf'.
  apply Hv. unfold discriminant.
  rewrite <- (Z.mod_0_l p) by lia. apply Zmod.of_Z_inj.
  rewrite Zmod.of_Z_add, !Zmod.of_Z_mul, of_Z_pow_2, of_Z_pow_3, Zmod.of_Z_0.
  change 4 with ((1 + 1) * (1 + 1)).
  change 27 with ((1 + 1 + 1) * (1 + 1 + 1) * (1 + 1 + 1)).
  rewrite !Zmod.of_Z_mul, !Zmod.of_Z_add, Zmod.of_Z_1.
  set (A := F a) in *. set (B := F b) in *.
  transitivity
    ((1 + 1) * (1 + 1) * (A * A) * (x * x + x * x + x * x + A)
     + (1 + 1 + 1) * ((1 + 1 + 1) * B - (1 + 1) * A * x)
       * ((1 + 1 + 1) * (x * x * x + A * x + B)
          - x * (x * x + x * x + x * x + A)))%Zmod; [ring|].
  rewrite Hf, Hf'. ring.
Qed.

(** The accumulator of the order search is a multiple of [G]. *)
Lemma accumulate_ec (G : Point.t) (k : nat) :
  valid_point a b p G = true ->
  exists Q,
    accumulate G k = Ok Q /\ valid_point a b p Q = true /\
    to_ec p Q = ec_mul (F a) (S k) (to_ec p G).
Proof.
  intros HG. induction k as [|k (Q & HQ & HvQ & HeQ)].
  - exists G. repeat split; assumption || reflexivity.
  - cbn [accumulate]. rewrite HQ. cbn [bind].
    destruct (add_points_ec a b p Hp Hp3 Q G HvQ HG) as (R & HR & HvR & HeR).
    exists R. repeat split; try assumption.
    rewrite HeR, HeQ. reflexivity.
Qed.

(** The loop of [__rmul__] adds [k] times [current] to [result]. *)
Lemma rmul_loop_spec (fuel : nat) :
  forall (k : Z) (res current : Point.t),
    valid_point a b p res = true -> valid_point a b p current = true ->
    (Z.to_nat k <= fuel)%nat ->
    exists R,
      Point.rmul_loop fuel k res current = Ok R /\
      valid_point a b p R = true /\
      to_ec p R
      = ec_add (F a) (to_ec p res) (ec_mul (F a) (Z.to_nat k) (to_ec p current)).
Proof.
  induction fuel as [|fuel IH]; intros k res current Hres Hcur Hfuel.
  - cbn [Point.rmul_loop]. destruct (Z.ltb_spec 0 k) as [Hk|Hk]; [lia|].
    exists res. repeat split; try assumption.
    replace (Z.to_nat k) with 0%nat by lia. cbn [ec_mul].
    symmetry. apply ec_add_None_r.
  - cbn [Point.rmul_loop]. destruct (Z.ltb_spec 0 k) as [Hk|Hk].
    2: { exists res. repeat split; try assumption.
         replace (Z.to_nat k) with 0%nat by lia. cbn [ec_mul].
         symmetry. apply ec_add_None_r. }
    pose proof (valid_point_on_curve a b p Hp3 res Hres) as Hor.
    pose proof (valid_point_on_curve a b p Hp3 current Hcur) as Hoc.
    destruct (add_points_ec a b p Hp Hp3 current current Hcur Hcur)
      as (C2 & HC2 & HvC2 & HeC2).
    assert (Hhalf : (Z.to_nat (k / 2) <= fuel)%nat).
    { pose proof (Z.div_lt_upper_bound k 2 k ltac:(lia) ltac:(lia)).
      pose proof (Z.div_pos k 2 ltac:(lia) ltac:(lia)). lia. }
    pose proof (Z.div_mod k 2 ltac:(lia)) as Hdm.
    pose proof (Z.mod_pos_bound k 2 ltac:(lia)) as Hmb.
    pose proof (Z.div_pos k 2 ltac:(lia) ltac:(lia)) as Hq.
    destruct (Z.eqb_spec (k mod 2) 1) as [Hodd|Heven].
    + destruct (add_points_ec a b p Hp Hp3 res current Hres Hcur)
        as (R1 & HR1 & HvR1 & HeR1).
      rewrite HR1. cbn [bind]. rewrite HC2. cbn [bind].
      destruct (IH (k / 2) R1 C2 HvR1 HvC2 Hhalf) as (R & HR & HvR & HeR).
      exists R. repeat split; try assumption.
      rewrite HeR, HeR1, HeC2.
      rewrite (ec_mul_double Hp Hp3 (F a) (F b) discriminant_smooth) by assumption.
      replace (Z.to_nat k)
        with (1 + (Z.to_nat (k / 2) + Z.to_nat (k / 2)))%nat by lia.
      rewrite (ec_mul_add Hp Hp3 (F a) (F b) discriminant_smooth 1) by assumption.
      apply (ec_add_assoc Hp Hp3 (F a) (F b) discriminant_smooth); try assumption.
      apply (ec_mul_oc Hp Hp3 (F a) (F b)); assumption.
    + cbn [bind]. rewrite HC2. cbn [bind].
      destruct (IH (k / 2) res C2 Hres HvC2 Hhalf) as (R & HR & HvR & HeR).
      exists R. repeat split; try assumption.
      rewrite HeR, HeC2.
      rewrite (ec_mul_double Hp Hp3 (F a) (F b) discriminant_smooth) by assumption.
      replace (Z.to_nat k)
        with (Z.to_nat (k / 2) + Z.to_nat (k / 2))%nat by lia.
      reflexivity.
Qed.

(** [k * G] is the [k]-fold sum of [G]. *)
Lemma rmul_spec (G : Point.t) (k : Z) :
  valid_point a b p G = true -> 0 <= k ->
  exists R,
    Point.rmul G k = Ok R /\ valid_point a b p R = true /\
    to_ec p R = ec_mul (F a) (Z.to_nat k) (to_ec p G).
Proof.
  intros HG Hk. unfold Point.rmul.
  destruct (valid_point_params a b p G HG) as (Ea & Eb & Ep).
  rewrite Ea, Eb, Ep.
  destruct (Z.ltb_spec k 0) as [|_]; [lia|].
  change (Point.init None None a b p) with (Ok (Point.mk None None a b p)).
  cbn [bind].
  set (O := Point.mk None None a b p).
  pose proof (valid_point_identity a b p) as HO.
  fold O in HO.
  destruct (Z.eqb_spec k 0) as [->|Hk0].
  { exists O. repeat split; assumption || reflexivity. }
  destruct (is_none (Point.x G)) eqn:Ex.
  { exists O. repeat split; try assumption.
    destruct (valid_point_cases _ _ _ Hp3 G HG) as [E|(xv & yv & E & _)];
      rewrite E in Ex |- *; [|discriminate Ex].
    symmetry. apply ec_mul_None. }
  destruct (rmul_loop_spec (Z.to_nat k) k O G HO HG (le_n _))
    as (R & HR & HvR & HeR).
  exists R. repeat split; assumption.
Qed.

(** [Point.__add__] is associative. *)
Lemma add_points_assoc (P Q R : Point.t) :
  valid_point a b p P = true -> valid_point a b p Q = true ->
  valid_point a b p R = true ->
  exists S,
    (PQ <- Point.add_points P Q ;; Point.add_points PQ R) = Ok S /\
    (QR <- Point.add_points Q R ;; Point.add_points P QR) = Ok S /\
    valid_point a b p S = true.
Proof.
  intros HP HQ HR.
  destruct (add_points_ec a b p Hp Hp3 P Q HP HQ) as (PQ & HPQ & HvPQ & HePQ).
  destruct (add_points_ec a b p Hp Hp3 Q R HQ HR) as (QR & HQR & HvQR & HeQR).
  destruct (add_points_ec a b p Hp Hp3 PQ R HvPQ HR) as (S1 & HS1 & HvS1 & HeS1).
  destruct (add_points_ec a b p Hp Hp3 P QR HP HvQR) as (S2 & HS2 & HvS2 & HeS2).
  exists S1. rewrite HPQ, HQR. cbn [bind]. rewrite HS1, HS2.
  split; [reflexivity|]. split; [|exact HvS1].
  f_equal. apply (to_ec_inj a b p Hp3); try assumption.
  rewrite HeS1, HeS2, HePQ, HeQR. symmetry.
  apply (ec_add_assoc Hp Hp3 (F a) (F b) discriminant_smooth);
    apply (valid_point_on_curve a b p Hp3); assumption.
Qed.

(** Scalars add up. *)
Lemma rmul_add_spec (G : Point.t) (k1 k2 : Z) :
  valid_point a b p G = true -> 0 <= k1 -> 0 <= k2 ->
  exists P1 P2 S,
    Point.rmul G k1 = Ok P1 /\ Point.rmul G k2 = Ok P2 /\
    Point.rmul G (k1 + k2) = Ok S /\ Point.add_points P1 P2 = Ok S.
Proof.
  intros HG Hk1 Hk2.
  destruct (rmul_spec G k1 HG Hk1) as (P1 & HP1 & HvP1 & HeP1).
  destruct (rmul_spec G k2 HG Hk2) as (P2 & HP2 & HvP2 & HeP2).
  destruct (rmul_spec G (k1 + k2) HG ltac:(lia)) as (S & HS & HvS & HeS).
  destruct (add_points_ec a b p Hp Hp3 P1 P2 HvP1 HvP2) as (S' & HS' & HvS' & HeS').
  exists P1, P2, S. repeat split; try assumption.
  rewrite HS'. f_equal. apply (to_ec_inj a b p Hp3); try assumption.
  rewrite HeS', HeS, HeP1, HeP2.
  replace (Z.to_nat (k1 + k2)) with (Z.to_nat k1 + Z.to_nat k2)%nat by lia.
  symmetry. apply (ec_mul_add Hp Hp3 (F a) (F b) discriminant_smooth).
  apply (valid_point_on_curve a b p Hp3), HG.
Qed.

(** The multiples of [G] that vanish are the multiples of its order. *)
Lemma ec_mul_order (g : ec_point p) (n : nat) :
  ec_on_curve (F a) (F b) g -> (0 < n)%nat ->
  ec_mul (F a) n g = None ->
  (forall j, (0 < j < n)%nat -> ec_mul (F a) j g <> None) ->
  forall k, ec_mul (F a) k g = None <-> Nat.divide n k.
Proof.
  intros Hg Hn Hzero Hmin k.
  assert (Hq : forall q, ec_mul (F a) (q * n) g = None).
  { induction q as [|q IH]; [reflexivity|].
    cbn [Nat.mul]. rewrite (ec_mul_add Hp Hp3 (F a) (F b) discriminant_smooth) by assumption.
    rewrite Hzero, IH. reflexivity. }
  pose proof (Nat.div_mod_eq k n) as Hk.
  pose proof (Nat.mod_upper_bound k n ltac:(lia)) as Hr.
  assert (E : ec_mul (F a) k g = ec_mul (F a) (k mod n) g).
  { rewrite Hk at 1. rewrite (ec_mul_add Hp Hp3 (F a) (F b) discriminant_smooth) by assumption.
    rewrite (Nat.mul_comm n), Hq. reflexivity. }
  rewrite E. split.
  - intros H0. destruct (Nat.eq_dec (k mod n) 0) as [E0|N0].
    + exists (k / n)%nat. lia.
    + exfalso. apply (Hmin (k mod n)%nat); [lia | exact H0].
  - intros [z Hz]. rewrite Hz, Nat.Div0.mod_mul. reflexivity.
Qed.

End ScalarMultiplication.

(** ** Scalar multiplication and the order of a point *)

(** Double-and-add computes what repeated addition computes. *)
Lemma rmul_accumulate (a b p : Z) (G : Point.t) (j : nat) :
  Z.prime p -> 3 <= p -> discriminant a b p <> 0 ->
  valid_point a b p G = true ->
  exists Q,
    Point.rmul G (Z.of_nat j + 1) = Ok Q /\ accumulate G j = Ok Q /\
    valid_point a b p Q = true.
Proof.
  intros Hp Hp3 Hv HG.
  destruct (rmul_spec a b p Hp Hp3 Hv G (Z.of_nat j + 1) HG ltac:(lia))
    as (R & HR & HvR & HeR).
  destruct (accumulate_ec a b p Hp Hp3 G j HG) as (Q & HQ & HvQ & HeQ).
  exists Q. split; [|split; assumption].
  rewrite HR. f_equal. apply (to_ec_inj a b p Hp3); try assumption.
  rewrite HeR, HeQ. f_equal. lia.
Qed.

(** C2: on a non-singular curve over an odd prime, when
    [find_order_brute_force] returns an order [n] for a valid point [G], the
    multiple [n * G] is the identity, and for every [0 < m < n] the multiple
    [m * G] is a point that does not compare equal to the identity. *)
Theorem find_order_correct (start_time end_time a b p n e : Z) (G : Point.t) :
  Z.prime p -> p <> 2 -> discriminant a b p <> 0 ->
  valid_point a b p G = true ->
  find_order_brute_force start_time end_time G = Ok (Some n, e) ->
  let O := Point.mk None None a b p in
  Point.rmul G n = Ok O /\
  forall m, 0 < m < n ->
    exists Q, Point.rmul G m = Ok Q /\ Point.eq Q (Point.PointVal O) = false.
Proof.
  intros Hp Hp2 Hv HG Hres O.
  pose proof (odd_prime_ge_3 p Hp Hp2) as Hp3.
  destruct (find_order_outcome start_time end_time a b p G Hp Hp2 HG)
    as [Hid Hother].
  destruct (Point.x G) as [xv|] eqn:Ex.
  - destruct (Hother ltac:(discriminate))
      as [[Hnone _]|(k & Hk & Hkmax & Hk' & Hreach & Hmin)].
    { rewrite Hnone in Hres. discriminate Hres. }
    rewrite Hk' in Hres. injection Hres as <- _.
    split.
    + destruct (rmul_accumulate a b p G k Hp Hp3 Hv HG) as (Q & HQ & HQ' & _).
      rewrite HQ. rewrite HQ' in Hreach. exact Hreach.
    + intros m Hm.
      destruct (rmul_accumulate a b p G (Z.to_nat (m - 1)) Hp Hp3 Hv HG)
        as (Q & HQ & HQ' & _).
      replace (Z.of_nat (Z.to_nat (m - 1)) + 1) with m in HQ by lia.
      exists Q. split; [exact HQ|].
      destruct (Z.to_nat (m - 1)) as [|j] eqn:Ej.
      * cbn [accumulate] in HQ'. injection HQ' as <-.
        cbn [Point.eq]. apply not_true_is_false. intros E.
        apply point_eqb_eq in E. rewrite E in Ex. discriminate Ex.
      * apply (Hmin (S j) Q); [lia | exact HQ'].
  - rewrite (Hid eq_refl) in Hres. injection Hres as <- _.
    split; [|intros m Hm; lia].
    destruct (rmul_accumulate a b p G 0 Hp Hp3 Hv HG) as (Q & HQ & HQ' & _).
    change (Z.of_nat 0 + 1) with 1 in HQ. rewrite HQ.
    cbn [accumulate] in HQ'. injection HQ' as <-. f_equal.
    destruct (valid_point_cases a b p Hp3 G HG) as [E|(x1 & y1 & E & _)];
      [exact E | rewrite E in Ex; discriminate Ex].
Qed.

Lemma find_order_correct_witness :
  Point.rmul (Point.mk (Some 3) (Some 10) 1 1 23) 28
    = Ok (Point.mk None None 1 1 23) /\
  forall m, 0 < m < 28 ->
    exists Q,
      Point.rmul (Point.mk (Some 3) (Some 10) 1 1 23) m = Ok Q /\
      Point.eq Q (Point.PointVal (Point.mk None None 1 1 23)) = false.
Proof.
  apply (find_order_correct 0 5 1 1 23 28 5 (Point.mk (Some 3) (Some 10) 1 1 23)).
  - apply primeb_sound. vm_compute. reflexivity.
  - discriminate.
  - vm_compute. discriminate.
  - vm_compute. reflexivity.
  - vm_compute. reflexivity.
Defined.

(** ** Further group laws of [Point] *)

(** X: on a non-singular curve over an odd prime the addition of valid
    points is associative: [(P + Q) + R] and [P + (Q + R)] return the same
    point, and no addition raises. *)
Theorem point_add_associative (a b p : Z) (P Q R : Point.t) :
  Z.prime p -> p <> 2 -> discriminant a b p <> 0 ->
  valid_point a b p P = true -> valid_point a b p Q = true ->
  valid_point a b p R = true ->
  exists S,
    (PQ <- Point.add_points P Q ;; Point.add_points PQ R) = Ok S /\
    (QR <- Point.add_points Q R ;; Point.add_points P QR) = Ok S.
Proof.
  intros Hp Hp2 Hv HP HQ HR.
  destruct (add_points_assoc a b p Hp (odd_prime_ge_3 p Hp Hp2) Hv P Q R HP HQ HR)
    as (S & H1 & H2 & _).
  exists S. split; assumption.
Qed.

Lemma point_add_associative_witness :
  exists S,
    (PQ <- Point.add_points (Point.mk (Some 3) (Some 10) 1 1 23)
                            (Point.mk (Some 0) (Some 1) 1 1 23) ;;
     Point.add_points PQ (Point.mk (Some 6) (Some 4) 1 1 23)) = Ok S /\
    (QR <- Point.add_points (Point.mk (Some 0) (Some 1) 1 1 23)
                            (Point.mk (Some 6) (Some 4) 1 1 23) ;;
     Point.add_points (Point.mk (Some 3) (Some 10) 1 1 23) QR) = Ok S.
Proof.
  apply (point_add_associative 1 1 23).
  - apply primeb_sound. vm_compute. reflexivity.
  - discriminate.
  - vm_compute. discriminate.
  - vm_compute. reflexivity.
  - vm_compute. reflexivity.
  - vm_compute. reflexivity.
Defined.

(** X: on a non-singular curve over an odd prime only the identity is
    neutral: if [P + Q] returns [P] for valid points, [Q] is the identity. *)
Theorem point_add_neutral_unique (a b p : Z) (P Q : Point.t) :
  Z.prime p -> p <> 2 -> discriminant a b p <> 0 ->
  valid_point a b p P = true -> valid_point a b p Q = true ->
  Point.add_points P Q = Ok P ->
  Q = Point.mk None None a b p.
Proof.
  intros Hp Hp2 Hv HP HQ E.
  pose proof (odd_prime_ge_3 p Hp Hp2) as Hp3.
  destruct (add_points_ec a b p Hp Hp3 P Q HP HQ) as (S & HS & _ & HeS).
  rewrite E in HS. injection HS as <-.
  apply (to_ec_inj a b p Hp3); [exact HQ | apply valid_point_identity |].
  apply (ec_add_fixed Hp Hp3 (Zmod.of_Z p a) (Zmod.of_Z p b)
           (discriminant_smooth a b p Hp3 Hv) (to_ec p P));
    try (apply (valid_point_on_curve a b p Hp3); assumption).
  symmetry. exact HeS.
Qed.

Lemma point_add_neutral_unique_witness :
  Point.mk None None 1 1 23 = Point.mk None None 1 1 23.
Proof.
  apply (point_add_neutral_unique 1 1 23 (Point.mk (Some 3) (Some 10) 1 1 23)).
  - apply primeb_sound. vm_compute. reflexivity.
  - discriminate.
  - vm_compute. discriminate.
  - vm_compute. reflexivity.
  - vm_compute. reflexivity.
  - vm_compute. reflexivity.
Defined.

(** X: on a non-singular curve over an odd prime a valid point can be
    cancelled: if [P + Q] and [P + R] return the same point, [Q] is [R]. *)
Theorem point_add_cancel (a b p : Z) (P Q R S : Point.t) :
  Z.prime p -> p <> 2 -> discriminant a b p <> 0 ->
  valid_point a b p P = true -> valid_point a b p Q = true ->
  valid_point a b p R = true ->
  Point.add_points P Q = Ok S -> Point.add_points P R = Ok S ->
  Q = R.
Proof.
  intros Hp Hp2 Hv HP HQ HR E1 E2.
  pose proof (odd_prime_ge_3 p Hp Hp2) as Hp3.
  destruct (add_points_ec a b p Hp Hp3 P Q HP HQ) as (S1 & HS1 & _ & HeS1).
  destruct (add_points_ec a b p Hp Hp3 P R HP HR) as (S2 & HS2 & _ & HeS2).
  rewrite E1 in HS1. injection HS1 as <-.
  rewrite E2 in HS2. injection HS2 as <-.
  apply (to_ec_inj a b p Hp3); try assumption.
  apply (ec_add_cancel_l Hp Hp3 (Zmod.of_Z p a) (Zmod.of_Z p b)
           (discriminant_smooth a b p Hp3 Hv) (to_ec p P));
    try (apply (valid_point_on_curve a b p Hp3); assumption).
  rewrite <- HeS1. exact HeS2.
Qed.

Lemma point_add_cancel_witness :
  Point.mk (Some 0) (Some 1) 1 1 23 = Point.mk (Some 0) (Some 1) 1 1 23.
Proof.
  apply (point_add_cancel 1 1 23 (Point.mk (Some 3) (Some 10) 1 1 23)
           (Point.mk (Some 0) (Some 1) 1 1 23) (Point.mk (Some 0) (Some 1) 1 1 23)
           (Point.mk (Some 6) (Some 4) 1 1 23)).
  - apply primeb_sound. vm_compute. reflexivity.
  - discriminate.
  - vm_compute. discriminate.
  - vm_compute. reflexivity.
  - vm_compute. reflexivity.
  - vm_compute. reflexivity.
  - vm_compute. reflexivity.
  - vm_compute. reflexivity.
Defined.

(** ** Laws of the scalar multiplication *)

(** X: double-and-add agrees with repeated addition: for a valid point [G]
    of a non-singular curve over an odd prime, [(j + 1) * G] returns the
    point that [j] additions of [G] to [G] return. *)
Theorem rmul_repeated_addition (a b p : Z) (G : Point.t) (j : nat) :
  Z.prime p -> p <> 2 -> discriminant a b p <> 0 ->
  valid_point a b p G = true ->
  exists Q, Point.rmul G (Z.of_nat j + 1) = Ok Q /\ accumulate G j = Ok Q.
Proof.
  intros Hp Hp2 Hv HG.
  destruct (rmul_accumulate a b p G j Hp (odd_prime_ge_3 p Hp Hp2) Hv HG)
    as (Q & H1 & H2 & _).
  exists Q. split; assumption.
Qed.

Lemma rmul_repeated_addition_witness :
  exists Q,
    Point.rmul (Point.mk (Some 3) (Some 10) 1 1 23) (Z.of_nat 12 + 1) = Ok Q /\
    accumulate (Point.mk (Some 3) (Some 10) 1 1 23) 12 = Ok Q.
Proof.
  apply (rmul_repeated_addition 1 1 23).
  - apply primeb_sound. vm_compute. reflexivity.
  - discriminate.
  - vm_compute. discriminate.
  - vm_compute. reflexivity.
Defined.

(** X: scalars add up: for a valid point [G] of a non-singular curve over an
    odd prime and [k1, k2 >= 0], the three products return points and
    [(k1 + k2) * G] is [k1 * G + k2 * G]. *)
Theorem rmul_additive (a b p : Z) (G : Point.t) (k1 k2 : Z) :
  Z.prime p -> p <> 2 -> discriminant a b p <> 0 ->
  valid_point a b p G = true -> 0 <= k1 -> 0 <= k2 ->
  exists P1 P2 S,
    Point.rmul G k1 = Ok P1 /\ Point.rmul G k2 = Ok P2 /\
    Point.rmul G (k1 + k2) = Ok S /\ Point.add_points P1 P2 = Ok S.
Proof.
  intros Hp Hp2 Hv HG Hk1 Hk2.
  apply (rmul_add_spec a b p Hp (odd_prime_ge_3 p Hp Hp2) Hv); assumption.
Qed.

Lemma rmul_additive_witness :
  exists P1 P2 S,
    Point.rmul (Point.mk (Some 3) (Some 10) 1 1 23) 5 = Ok P1 /\
    Point.rmul (Point.mk (Some 3) (Some 10) 1 1 23) 9 = Ok P2 /\
    Point.rmul (Point.mk (Some 3) (Some 10) 1 1 23) (5 + 9) = Ok S /\
    Point.add_points P1 P2 = Ok S.
Proof.
  apply (rmul_additive 1 1 23).
  - apply primeb_sound. vm_compute. reflexivity.
  - discriminate.
  - vm_compute. discriminate.
  - vm_compute. reflexivity.
  - lia.
  - lia.
Defined.

(** X: the order that [find_order_brute_force] returns decides which
    multiples vanish: for [k >= 0], [k * G] compares equal to the identity
    exactly when the order divides [k]. *)
Theorem find_order_divides (start_time end_time a b p n e k : Z) (G : Point.t) :
  Z.prime p -> p <> 2 -> discriminant a b p <> 0 ->
  valid_point a b p G = true ->
  find_order_brute_force start_time end_time G = Ok (Some n, e) ->
  0 <= k ->
  exists Q,
    Point.rmul G k = Ok Q /\
    (Point.eq Q (Point.PointVal (Point.mk None None a b p)) = true <-> (n | k)).
Proof.
  intros Hp Hp2 Hv HG Hres Hk.
  pose proof (odd_prime_ge_3 p Hp Hp2) as Hp3.
  destruct (rmul_spec a b p Hp Hp3 Hv G k HG Hk) as (Q & HQ & HvQ & HeQ).
  exists Q. split; [exact HQ|].
  rewrite <- (to_ec_none a b p Hp3 Q HvQ), HeQ.
  destruct (find_order_outcome start_time end_time a b p G Hp Hp2 HG)
    as [Hid Hother].
  destruct (Point.x G) as [xv|] eqn:Ex.
  - destruct (Hother ltac:(discriminate))
      as [[Hnone _]|(k0 & Hk0 & _ & Hk' & Hreach & Hmin)].
    { rewrite Hnone in Hres. discriminate Hres. }
    rewrite Hk' in Hres. injection Hres as <- _.
    rewrite (ec_mul_order a b p Hp Hp3 Hv (to_ec p G) (S k0)).
    + split.
      * intros [z Hz]. exists (Z.of_nat z). lia.
      * intros [z Hz]. exists (Z.to_nat z). nia.
    + apply (valid_point_on_curve a b p Hp3), HG.
    + lia.
    + destruct (accumulate_ec a b p Hp Hp3 G k0 HG) as (Q0 & HQ0 & _ & HeQ0).
      rewrite Hreach in HQ0. injection HQ0 as <-. symmetry. exact HeQ0.
    + intros j Hj E. destruct j as [|j]; [lia|].
      destruct (accumulate_ec a b p Hp Hp3 G j HG) as (Qj & HQj & HvQj & HeQj).
      rewrite <- HeQj in E. apply (to_ec_none a b p Hp3 Qj HvQj) in E.
      destruct j as [|j].
      * cbn [accumulate] in HQj. injection HQj as <-.
        cbn [Point.eq] in E. apply point_eqb_eq in E. rewrite E in Ex.
        discriminate Ex.
      * rewrite (Hmin (S j) Qj ltac:(lia) HQj) in E. discriminate E.
  - rewrite (Hid eq_refl) in Hres. injection Hres as <- _.
    destruct (valid_point_cases a b p Hp3 G HG) as [E|(x1 & y1 & E & _)];
      [|rewrite E in Ex; discriminate Ex].
    rewrite E. change (to_ec p (Point.mk None None a b p)) with (@None (Zmod p * Zmod p)).
    rewrite ec_mul_None. split; [intros _; apply Z.divide_1_l | reflexivity].
Qed.

Lemma find_order_divides_witness :
  exists Q,
    Point.rmul (Point.mk (Some 3) (Some 10) 1 1 23) 56 = Ok Q /\
    (Point.eq Q (Point.PointVal (Point.mk None None 1 1 23)) = true <-> (28 | 56)).
Proof.
  apply (find_order_divides 0 5 1 1 23 28 5 56).
  - apply primeb_sound. vm_compute. reflexivity.
  - discriminate.
  - vm_compute. discriminate.
  - vm_compute. reflexivity.
  - vm_compute. reflexivity.
  - lia.
Defined.

(** ** Multiples of multiples, and the negation of a sum *)

Lemma ec_mul_mul {p : Z} (Hp : Z.prime p) (Hp3 : 3 <= p) (A B : Zmod p)
    (m n : nat) (P : ec_point p) :
  smooth A B -> ec_on_curve A B P ->
  ec_mul A (m * n) P = ec_mul A m (ec_mul A n P).
Proof.
  intros Hs HP. induction m as [|m IH]; [reflexivity|].
  cbn [Nat.mul ec_mul].
  rewrite (ec_mul_add Hp Hp3 A B Hs n (m * n) P HP), IH.
  apply (ec_add_comm Hp A B); repeat apply (ec_mul_oc Hp Hp3 A B); exact HP.
Qed.

(** X: scalars multiply: for a valid point [G] of a non-singular curve over
    an odd prime and [k1, k2 >= 0], the product [k1 * (k2 * G)] returns the
    point that [(k1 * k2) * G] returns. *)
Theorem rmul_multiplicative (a b p : Z) (G : Point.t) (k1 k2 : Z) :
  Z.prime p -> p <> 2 -> discriminant a b p <> 0 ->
  valid_point a b p G = true -> 0 <= k1 -> 0 <= k2 ->
  exists P2 R,
    Point.rmul G k2 = Ok P2 /\ Point.rmul P2 k1 = Ok R /\
    Point.rmul G (k1 * k2) = Ok R.
Proof.
  intros Hp Hp2 Hv HG Hk1 Hk2. pose proof (odd_prime_ge_3 p Hp Hp2) as Hp3.
  destruct (rmul_spec a b p Hp Hp3 Hv G k2 HG Hk2) as (P2 & HP2 & HvP2 & HeP2).
  destruct (rmul_spec a b p Hp Hp3 Hv P2 k1 HvP2 Hk1) as (R & HR & HvR & HeR).
  destruct (rmul_spec a b p Hp Hp3 Hv G (k1 * k2) HG ltac:(nia))
    as (R' & HR' & HvR' & HeR').
  exists P2, R. split; [exact HP2|]. split; [exact HR|].
  rewrite HR'. f_equal. apply (to_ec_inj a b p Hp3); try assumption.
  rewrite HeR', HeR, HeP2.
  replace (Z.to_nat (k1 * k2)) with (Z.to_nat k1 * Z.to_nat k2)%nat by nia.
  apply (ec_mul_mul Hp Hp3 (Zmod.of_Z p a) (Zmod.of_Z p b)).
  - apply (discriminant_smooth a b p Hp3 Hv).
  - apply (valid_point_on_curve a b p Hp3), HG.
Qed.

Lemma rmul_multiplicative_witness :
  exists P2 R,
    Point.rmul (Point.mk (Some 3) (Some 10) 1 1 23) 5 = Ok P2 /\
    Point.rmul P2 7 = Ok R /\
    Point.rmul (Point.mk (Some 3) (Some 10) 1 1 23) (7 * 5) = Ok R.
Proof.
  apply (rmul_multiplicative 1 1 23).
  - apply primeb_sound. vm_compute. reflexivity.
  - discriminate.
  - vm_compute. discriminate.
  - vm_compute. reflexivity.
  - lia.
  - lia.
Defined.

(** X: negation distributes over the addition: for valid points [P] and [Q]
    of a curve over an odd prime, [-(P + Q)] returns the point that
    [(-P) + (-Q)] returns. *)
Theorem point_neg_add (a b p : Z) (P Q : Point.t) :
  Z.prime p -> p <> 2 ->
  valid_point a b p P = true -> valid_point a b p Q = true ->
  exists N,
    (R <- Point.add_points P Q ;; Point.neg R) = Ok N /\
    (NP <- Point.neg P ;; NQ <- Point.neg Q ;; Point.add_points NP NQ) = Ok N.
Proof.
  intros Hp Hp2 HP HQ. pose proof (odd_prime_ge_3 p Hp Hp2) as Hp3.
  destruct (add_points_ec a b p Hp Hp3 P Q HP HQ) as (R & HR & HvR & HeR).
  destruct (point_neg_ec a b p R Hp Hp3 HvR) as (N & HN & HvN & HeN & _).
  destruct (point_neg_ec a b p P Hp Hp3 HP) as (NP & HNP & HvNP & HeNP & _).
  destruct (point_neg_ec a b p Q Hp Hp3 HQ) as (NQ & HNQ & HvNQ & HeNQ & _).
  destruct (add_points_ec a b p Hp Hp3 NP NQ HvNP HvNQ) as (S & HS & HvS & HeS).
  exists N. rewrite HR, HNP, HNQ. cbn [bind]. split; [exact HN|].
  rewrite HS. f_equal. apply (to_ec_inj a b p Hp3); try assumption.
  rewrite HeS, HeN, HeR, HeNP, HeNQ. symmetry.
  apply (ec_neg_add Hp Hp3 (Zmod.of_Z p a) (Zmod.of_Z p b));
    apply (valid_point_on_curve a b p Hp3); assumption.
Qed.

Lemma point_neg_add_witness :
  exists N,
    (R <- Point.add_points (Point.mk (Some 3) (Some 10) 1 1 23)
                           (Point.mk (Some 0) (Some 1) 1 1 23) ;;
     Point.neg R) = Ok N /\
    (NP <- Point.neg (Point.mk (Some 3) (Some 10) 1 1 23) ;;
     NQ <- Point.neg (Point.mk (Some 0) (Some 1) 1 1 23) ;;
     Point.add_points NP NQ) = Ok N.
Proof.
  apply (point_neg_add 1 1 23).
  - apply primeb_sound. vm_compute. reflexivity.
  - discriminate.
  - vm_compute. reflexivity.
  - vm_compute. reflexivity.
Defined.

(** ** Completeness of the scan of [find_points_on_curve] *)

Lemma combine_snoc {X Y : Type} (l : list X) (l' : list Y) (u : X) (v : Y) :
  length l = length l' ->
  combine (l ++ [u]) (l' ++ [v]) = combine l l' ++ [(u, v)].
Proof.
  revert l'. induction l as [|h t IH]; intros [|h' t'] Hlen;
    try discriminate Hlen; [reflexivity|].
  cbn [app combine]. rewrite IH by (injection Hlen as E; exact E). reflexivity.
Qed.

(** The pairs after the roots of one [x] were appended; when the limit stops
    the loop, the lists have reached it. *)
Lemma emit_roots_trace (mx xv : Z) (roots : list Z) :
  forall px py count,
    length px = length py -> count = Z.of_nat (length px) ->
    match emit_roots xv roots px py count mx with
    | inl (rx, ry) =>
        length rx = length ry /\ mx <= Z.of_nat (length rx) /\
        (forall u v, In (u, v) (combine rx ry) ->
                     In (u, v) (combine px py) \/ (u = xv /\ In v roots))
    | inr (px', py', count') =>
        length px' = length py' /\ count' = Z.of_nat (length px') /\
        (forall u v, In (u, v) (combine px' py') <->
                     In (u, v) (combine px py) \/ (u = xv /\ In v roots))
    end.
Proof.
  induction roots as [|yv rest IH]; intros px py count Hlen Hcount;
    cbn [emit_roots].
  - split; [exact Hlen|]. split; [exact Hcount|]. intros u v. cbn [In]. tauto.
  - assert (Hlen' : length (px ++ [xv]) = length (py ++ [yv])).
    { rewrite !length_app. cbn [length]. lia. }
    assert (Hcount' : count + 1 = Z.of_nat (length (px ++ [xv]))).
    { rewrite length_app. cbn [length]. lia. }
    assert (Hin : forall u v, In (u, v) (combine (px ++ [xv]) (py ++ [yv])) <->
                              In (u, v) (combine px py) \/ (u = xv /\ v = yv)).
    { intros u v. rewrite combine_snoc by exact Hlen. rewrite in_app_iff.
      cbn [In]. split.
      - intros [H|[H|[]]]; [left; exact H|]. right.
        split; congruence.
      - intros [H|[-> ->]]; [left; exact H|]. right. left. reflexivity. }
    destruct (Z.geb_spec (count + 1) mx) as [Hge|Hlt].
    + split; [exact Hlen'|]. split; [lia|].
      intros u v H. apply Hin in H. cbn [In].
      destruct H as [H|[-> ->]]; [left; exact H|]. right. split; [reflexivity|].
      left. reflexivity.
    + specialize (IH (px ++ [xv]) (py ++ [yv]) (count + 1) Hlen' Hcount').
      destruct (emit_roots xv rest (px ++ [xv]) (py ++ [yv]) (count + 1) mx)
        as [[rx ry]|[[px' py'] count']].
      * destruct IH as (H1 & H2 & H3). split; [exact H1|]. split; [exact H2|].
        intros u v H. apply H3 in H. rewrite Hin in H. cbn [In].
        destruct H as [[H|[-> ->]]|[-> H]]; auto.
      * destruct IH as (H1 & H2 & H3). split; [exact H1|]. split; [exact H2|].
        intros u v. rewrite H3, Hin. cbn [In]. split.
        -- intros [[H|[-> ->]]|[-> H]]; auto.
        -- intros [H|[-> [<-|H]]]; auto.
Qed.

Lemma scan_xs_trace (a b p mx : Z) :
  Z.prime p -> p <> 2 ->
  forall xs px py count,
    length px = length py -> count = Z.of_nat (length px) ->
    exists rx ry,
      scan_xs xs a b p px py count mx = Ok (rx, ry) /\
      (forall u v, In (u, v) (combine rx ry) ->
         In (u, v) (combine px py) \/
         (In u xs /\ 0 <= v < p /\ on_curve a b p u v)) /\
      (Z.of_nat (length rx) < mx ->
       forall u v,
         In (u, v) (combine px py) \/
         (In u xs /\ 0 <= v < p /\ on_curve a b p u v) ->
         In (u, v) (combine rx ry)).
Proof.
  intros Hp Hp2. pose proof (Z.prime_ge_2 p Hp) as Hge.
  induction xs as [|xv rest IH]; intros px py count Hlen Hcount; cbn [scan_xs].
  - exists px, py. split; [reflexivity|]. split.
    + intros u v H. left. exact H.
    + intros _ u v [H|[[] _]]. exact H.
  - cbv zeta.
    destruct (tonelli_shanks_exact ((pow xv 3 p + a * xv + b) mod p) p Hp Hp2)
      as (roots & Hts & Hroots).
    rewrite Hts.
    assert (Hon : forall r, In r roots <-> 0 <= r < p /\ on_curve a b p xv r).
    { intros r. rewrite Hroots. unfold on_curve.
      rewrite Z.mod_mod by lia. unfold pow.
      rewrite <- Z.add_assoc, Z.add_mod_idemp_l by lia.
      rewrite Z.pow_2_r.
      replace (xv ^ 3 + (a * xv + b)) with (xv ^ 3 + a * xv + b) by ring.
      reflexivity. }
    pose proof (emit_roots_trace mx xv roots px py count Hlen Hcount) as He.
    destruct (emit_roots xv roots px py count mx) as [[rx ry]|[[px' py'] count']].
    + destruct He as (H1 & H2 & H3).
      exists rx, ry. split; [reflexivity|]. split; [|lia].
      intros u v H. apply H3 in H. destruct H as [H|[-> H]]; [left; exact H|].
      right. apply Hon in H. split; [left; reflexivity | exact H].
    + destruct He as (H1 & H2 & H3).
      destruct (IH px' py' count' H1 H2) as (rx & ry & Hscan & Hsound & Hcompl).
      exists rx, ry. split; [exact Hscan|]. split.
      * intros u v H. apply Hsound in H.
        destruct H as [H|(H & Hv)].
        -- apply H3 in H. destruct H as [H|[-> H]]; [left; exact H|].
           right. apply Hon in H. split; [left; reflexivity | exact H].
        -- right. split; [right; exact H | exact Hv].
      * intros Hlim u v H. apply (Hcompl Hlim).
        destruct H as [H|([<-|H] & Hv)].
        -- left. apply H3. left. exact H.
        -- left. apply H3. right. split; [reflexivity|]. apply Hon, Hv.
        -- right. split; assumption.
Qed.

(** X: [find_points_on_curve] lists points of the curve only, with [x] in
    [[0, x_limit)] and [y] in [[0, p)]; when the limit on the number of points
    is not reached, it lists every such point. *)
Theorem find_points_complete (a b p x_limit max_total_points : Z) :
  Z.prime p -> p <> 2 ->
  exists xs ys,
    find_points_on_curve a b p x_limit max_total_points = Ok (xs, ys) /\
    (forall xv yv, In (xv, yv) (combine xs ys) ->
       0 <= xv < x_limit /\ 0 <= yv < p /\ on_curve a b p xv yv) /\
    (Z.of_nat (length xs) < max_total_points ->
     forall xv yv,
       0 <= xv < x_limit -> 0 <= yv < p -> on_curve a b p xv yv ->
       In (xv, yv) (combine xs ys)).
Proof.
  intros Hp Hp2. pose proof (Z.prime_ge_2 p Hp) as Hge.
  unfold find_points_on_curve. destruct (Z.leb_spec p 2) as [?|_]; [lia|].
  destruct (scan_xs_trace a b p max_total_points Hp Hp2
              (py_range 0 x_limit) [] [] 0 eq_refl eq_refl)
    as (xs & ys & Hscan & Hsound & Hcompl).
  exists xs, ys. split; [exact Hscan|]. split.
  - intros xv yv H. apply Hsound in H. destruct H as [[]|(H & Hv)].
    apply py_range_In in H. split; [lia | exact Hv].
  - intros Hlim xv yv Hx Hy Hon. apply (Hcompl Hlim). right.
    split; [apply py_range_In; lia|]. split; assumption.
Qed.

Lemma find_points_complete_witness :
  exists xs ys,
    find_points_on_curve 1 1 23 23 100 = Ok (xs, ys) /\
    (forall xv yv, In (xv, yv) (combine xs ys) ->
       0 <= xv < 23 /\ 0 <= yv < 23 /\ on_curve 1 1 23 xv yv) /\
    (Z.of_nat (length xs) < 100 ->
     forall xv yv,
       0 <= xv < 23 -> 0 <= yv < 23 -> on_curve 1 1 23 xv yv ->
       In (xv, yv) (combine xs ys)).
Proof.
  apply (find_points_complete 1 1 23 23 100).
  - apply primeb_sound. vm_compute. reflexivity.
  - discriminate.
Defined.

(** ** When the scalar multiplication raises *)

Lemma rmul_loop_valid (a b p : Z) (fuel : nat) :
  Z.prime p -> 3 <= p ->
  forall (k : Z) (res current : Point.t),
    valid_point a b p res = true -> valid_point a b p current = true ->
    (Z.to_nat k <= fuel)%nat ->
    exists R,
      Point.rmul_loop fuel k res current = Ok R /\ valid_point a b p R = true.
Proof.
  intros Hp Hp3.
  induction fuel as [|fuel IH]; intros k res current Hres Hcur Hfuel;
    cbn [Point.rmul_loop]; destruct (Z.ltb_spec 0 k) as [Hk|Hk];
    try lia; try (exists res; split; [reflexivity | exact Hres]).
  destruct (add_points_ec a b p Hp Hp3 current current Hcur Hcur)
    as (C2 & HC2 & HvC2 & _).
  assert (Hhalf : (Z.to_nat (k / 2) <= fuel)%nat).
  { pose proof (Z.div_lt_upper_bound k 2 k ltac:(lia) ltac:(lia)).
    pose proof (Z.div_pos k 2 ltac:(lia) ltac:(lia)). lia. }
  destruct (k mod 2 =? 1).
  - destruct (add_points_ec a b p Hp Hp3 res current Hres Hcur)
      as (R1 & HR1 & HvR1 & _).
    rewrite HR1. cbn [bind]. rewrite HC2. cbn [bind].
    apply IH; assumption.
  - cbn [bind]. rewrite HC2. cbn [bind]. apply IH; assumption.
Qed.

(** X: for a valid point [G] of a curve over an odd prime, singular or not,
    [k * G] raises exactly when [k < 0], and then a [ValueError]; for
    [k >= 0] it returns a valid point. *)
Theorem rmul_raises_iff_negative (a b p : Z) (G : Point.t) (k : Z) :
  Z.prime p -> p <> 2 -> valid_point a b p G = true ->
  (k < 0 -> Point.rmul G k = Raise ValueError) /\
  (0 <= k ->
   exists R, Point.rmul G k = Ok R /\ valid_point a b p R = true).
Proof.
  intros Hp Hp2 HG. pose proof (odd_prime_ge_3 p Hp Hp2) as Hp3.
  unfold Point.rmul. split.
  - intros Hk. destruct (Z.ltb_spec k 0) as [_|]; [reflexivity | lia].
  - intros Hk. destruct (Z.ltb_spec k 0) as [|_]; [lia|].
    destruct (valid_point_params a b p G HG) as (Ea & Eb & Ep).
    rewrite Ea, Eb, Ep.
    change (Point.init None None a b p) with (Ok (Point.mk None None a b p)).
    cbn [bind].
    pose proof (valid_point_identity a b p) as HO.
    destruct (k =? 0); [eexists; split; [reflexivity | exact HO]|].
    destruct (is_none (Point.x G)); [eexists; split; [reflexivity | exact HO]|].
    apply (rmul_loop_valid a b p (Z.to_nat k) Hp Hp3); try assumption.
    apply le_n.
Qed.

Lemma rmul_raises_iff_negative_witness :
  (3 < 0 -> Point.rmul (Point.mk (Some 0) (Some 0) 0 0 7) 3 = Raise ValueError) /\
  (0 <= 3 ->
   exists R, Point.rmul (Point.mk (Some 0) (Some 0) 0 0 7) 3 = Ok R /\
             valid_point 0 0 7 R = true).
Proof.
  apply (rmul_raises_iff_negative 0 0 7).
  - apply primeb_sound. vm_compute. reflexivity.
  - discriminate.
  - vm_compute. reflexivity.
Defined.

(** ** Curves that [validate_curve] accepts *)

Lemma validate_curve_accepts (a b p : Z) :
  validate_curve a b p = Ok true -> 2 < p /\ discriminant a b p <> 0.
Proof.
  unfold validate_curve. destruct (Z.leb_spec p 2) as [|Hp]; [discriminate|].
  destruct ((2 <? p) && negb (p mod 2 =? 0));
    [destruct (float_overflows p); [discriminate|]|]; cbn [bind];
    (destruct (Z.eqb_spec (discriminant a b p) 0) as [|Hd]; [discriminate|]);
    intros _; (split; [exact Hp | exact Hd]).
Qed.

(** The conversion to a float fails for an odd modulus above the range of
    the doubles. *)
Example validate_curve_overflow :
  validate_curve 1 1 (2 ^ 1024 + 643) = Raise OverflowError.
Proof. vm_compute. reflexivity. Qed.

(** X: when [validate_curve a b p] returns [True] for a prime [p], the curve
    has no singular point: no [x] is a root modulo [p] of both
    [x^3 + a*x + b] and its derivative [3*x^2 + a]. *)
Theorem validate_curve_nonsingular (a b p x : Z) :
  Z.prime p -> validate_curve a b p = Ok true ->
  (x ^ 3 + a * x + b) mod p = 0 -> (3 * x ^ 2 + a) mod p <> 0.
Proof.
  intros Hp Hv Hf Hf'. destruct (validate_curve_accepts a b p Hv) as [Hp3 Hd].
  assert (E : forall z, z mod p = 0 -> Zmod.of_Z p z = Zmod.zero).
  { intros z Hz. rewrite <- (Zmod.of_Z_0 p). apply Zmod.of_Z_inj.
    rewrite Hz. symmetry. apply Z.mod_0_l. lia. }
  apply (discriminant_smooth a b p ltac:(lia) Hd (Zmod.of_Z p x)).
  - rewrite <- (E _ Hf). replace (x ^ 3) with (x * x * x) by ring.
    rewrite !Zmod.of_Z_add, !Zmod.of_Z_mul. reflexivity.
  - rewrite <- (E _ Hf').
    replace (3 * x ^ 2 + a) with (x * x + x * x + x * x + a) by ring.
    rewrite !Zmod.of_Z_add, !Zmod.of_Z_mul. reflexivity.
Qed.

Lemma validate_curve_nonsingular_witness : (3 * 4 ^ 2 + 1) mod 23 <> 0.
Proof.
  apply (validate_curve_nonsingular 1 1 23 4).
  - apply primeb_sound. vm_compute. reflexivity.
  - vm_compute. reflexivity.
  - vm_compute. reflexivity.
Defined.
